(** * Go-Pipeline: the pipeline controller and its three stage constructors

    The development embeds package [pipeline]: the controller of
    [pipeline.go] ([New], [WithLogger], [Add], [Stop], [Wait]) and the
    stage constructors [Source], [FanOut] and [Sink], together with the
    driver and the generator of [main]. The controller's functions are
    functions on its state; the goroutines that the stages start are a
    labelled transition system over the Go primitives they are written
    with: a cancellable context with a cause, unbuffered channels,
    [select], and [sync.WaitGroup]. *)

From stdpp Require Import base tactics option list strings.
From Stdlib Require Import ZArith Lia.

Open Scope Z_scope.

(** ** The Go primitives the package is written with *)

(** Values of Go's [error] interface. [nil] is the absent error,
    [Canceled] is the sentinel [context.Canceled], and [Errorf msg] stands
    for an error built by [fmt.Errorf]. *)
Inductive error : Type :=
  | nil
  | Canceled
  | Errorf (msg : string).

Global Instance error_eq_dec : EqDecision error := ltac:(solve_decision).

Definition is_nil (e : error) : bool :=
  match e with nil => true | _ => false end.

(** The [Error()] method: the text of an error. *)
Definition Error (e : error) : string :=
  match e with
  | nil => "<nil>"
  | Canceled => "context canceled"
  | Errorf msg => msg
  end.

Module context.

(** [context.cancelCtx]: [err] is nil until the context is cancelled;
    the done channel is closed exactly when [err] is not nil. *)
Record cancelCtx : Type := { err : error; cause : error }.

Definition Background : cancelCtx := {| err := nil; cause := nil |}.

(** The [cancel(removeFromParent, err, cause)] method: a nil cause is
    replaced by [err]; a context that is already cancelled is left as it
    is. *)
Definition cancel (c : cancelCtx) (e cs : error) : cancelCtx :=
  let cs := if is_nil cs then e else cs in
  if is_nil (err c) then {| err := e; cause := cs |} else c.

(** [context.WithCancelCause(parent)]: the child starts cancelled when
    the parent already is, with the parent's error and cause. *)
Definition WithCancelCause (parent : cancelCtx) : cancelCtx :=
  if is_nil (err parent) then Background
  else cancel Background (err parent) (cause parent).

(** The [CancelCauseFunc] returned by [WithCancelCause]. *)
Definition CancelCauseFunc (cs : error) (c : cancelCtx) : cancelCtx :=
  cancel c Canceled cs.

Definition Err (c : cancelCtx) : error := err c.
Definition Cause (c : cancelCtx) : error := cause c.

(** Whether [<-ctx.Done()] can proceed. *)
Definition done (c : cancelCtx) : bool := negb (is_nil (err c)).

End context.

Module log.

Inductive Writer : Type :=
  | Discard                 (* io.Discard *)
  | Stdout                  (* os.Stdout *)
  | File (name : string).

Record Logger : Type := { out : Writer; prefix : string; flags : Z }.

Definition Ldate : Z := 1.
Definition Ltime : Z := 2.
Definition LstdFlags : Z := Z.lor Ldate Ltime.

Definition New (w : Writer) (pre : string) (flag : Z) : Logger :=
  {| out := w; prefix := pre; flags := flag |}.

End log.

(** ** pipeline.go: the controller *)

(** The [Pipeline] struct. [wg] is the counter of the [sync.WaitGroup].
    The [cancel] field is the [CancelCauseFunc] of the derived context; it
    is represented by that context, which [New] returns next to the struct
    and on which [Stop] acts. A [*log.Logger] is a pointer, [None] is the
    nil pointer. *)
Record Pipeline : Type := { wg : Z; logger : option log.Logger }.

Definition Option : Type := Pipeline → Pipeline.

Definition WithLogger (l : option log.Logger) : Option :=
  fun p => {| wg := wg p; logger := l |}.

Definition New (ctx : context.cancelCtx) (opts : list Option)
  : Pipeline * context.cancelCtx :=
  let childCtx := context.WithCancelCause ctx in
  let p := {| wg := 0;
              logger := Some (log.New log.Discard "[pipeline] " log.LstdFlags) |} in
  (fold_left (fun p opt => opt p) opts p, childCtx).

(** [p.Stop(err)] is [p.cancel(err)]. *)
Definition Stop (e : error) (ctx : context.cancelCtx) : context.cancelCtx :=
  context.CancelCauseFunc e ctx.

(** [sync.WaitGroup.Add(delta)] on the pipeline's counter; the flag tells
    whether the call panics because the counter went negative. *)
Definition wg_add (delta v : Z) : Z * bool := (v + delta, v + delta <? 0).

(** ** The pipeline as a transition system

    The driver builds Source → FanOut → Sink and waits, as [main] does.
    Every goroutine is a program counter; one transition is one atomic
    action of one goroutine. A blocking channel operation has two program
    points: the goroutine arrives at the operation, where it either
    completes it at once with a partner that is already parked or parks;
    and the goroutine is parked, where only another goroutine can complete
    the operation for it. A [select] that arrives with several cases ready
    takes any one of them; a parked [select] is resumed by the first of
    its cases that another goroutine makes ready, and by that one only:
    closing a channel takes every goroutine parked on it off all the
    channels of its [select], so that once the done channel of the
    context is closed no [select] that waits on it is parked any more,
    and one that arrives later finds that case ready and does not park. *)

Section model.

Context {In Out : Type}.

(** A generator, the [fn] given to [Source], as the finite sequence of
    its actions on the pipeline: it may look at [ctx.Err()] and return
    when it is set, send an item with [out <- x], or call [p.Stop(e)] and
    return. *)
Inductive gen_op : Type :=
  | GCheck
  | GSend (x : In)
  | GStop (e : error).

(** What [filepath.Walk] visits in [main]'s generator. *)
Inductive walk_entry : Type :=
  | Failed (name : string) (e : error)
      (* the callback is called for the path that prints as name with
         err != nil *)
  | Irregular                (* a directory, a symlink, ... *)
  | Regular (path : In).

(** The error that the callback passes to [p.Stop], pipeline.go line 124:
    [fmt.Errorf("ошибка при обходе %s: %w", path, err)], a new error value
    whose text is made of the path and of the text of [err]. *)
Definition walk_error (name : string) (e : error) : error :=
  Errorf ("ошибка при обходе " +:+ name +:+ ": " +:+ Error e).

(** The callback given to [filepath.Walk] in [main], entry by entry. *)
Fixpoint walk (entries : list walk_entry) : list gen_op :=
  match entries with
  | [] => []
  | Failed name e :: _ => [GStop (walk_error name e)]
  | Irregular :: rest => GCheck :: walk rest
  | Regular path :: rest => GCheck :: GSend path :: walk rest
  end.

Inductive main_pc : Type :=
  | MSource                  (* before pipeline.Source(...) *)
  | MFanOut                  (* before pipeline.FanOut(...) *)
  | MSink                    (* before pipeline.Sink(...) *)
  | MWait                    (* in p.Wait() *)
  | MExit.                   (* p.Wait() returned *)

Inductive src_pc : Type :=
  | SrcNone                                  (* not started *)
  | SrcRun (prog : list gen_op)              (* in fn(out); [] is its return *)
  | SrcPark (x : In) (rest : list gen_op)    (* parked in out <- x *)
  | SrcPDone                                 (* out closed; p.wg.Done() pending *)
  | SrcExit.

Inductive sup_pc : Type :=
  | SupNone
  | SupLoop (i : Z)          (* at the loop test i < workerCount *)
  | SupSpawn (i : Z)         (* after wg.Add(1), before p.Add(worker) *)
  | SupWait                  (* in wg.Wait() *)
  | SupClose                 (* before close(out) *)
  | SupPDone                 (* p.wg.Done() pending *)
  | SupExit.

Inductive worker_pc : Type :=
  | WSelRecv                 (* arriving at select { <-in, <-ctx.Done() } *)
  | WParkRecv                (* parked in it *)
  | WItem (x : In)           (* received x, ok = true; before fn(item) *)
  | WStop (e : error)        (* fn failed; before p.Stop(err) *)
  | WSelSend (r : Out)       (* arriving at select { out <- r, <-ctx.Done() } *)
  | WParkSend (r : Out)      (* parked in it *)
  | WDefer                   (* returned; the deferred wg.Done() pending *)
  | WPDone                   (* p.wg.Done() pending *)
  | WExit.

Inductive sink_pc : Type :=
  | SnkNone
  | SnkSel                   (* arriving at select { <-in, <-ctx.Done() } *)
  | SnkPark                  (* parked in it *)
  | SnkItem (r : Out)        (* received r; before fn(item) *)
  | SnkPDone                 (* p.wg.Done() pending *)
  | SnkExit.

(** What a transition lets an observer see. *)
Inductive event : Type :=
  | ECancel (cs : error)       (* the context is cancelled, with cause cs *)
  | ERecv (i : nat) (x : In)   (* worker i received x from its input *)
  | ESend (i : nat) (r : Out)  (* worker i's send of r was completed *)
  | ECloseSrc                  (* close(out) was called in Source *)
  | ECloseFan.                 (* close(out) was called in FanOut *)

(** Which case a [select] takes when it arrives. *)
Inductive pick : Type := TakeComm | TakeDone.

(** The scheduler's choice: which goroutine moves, which parked partner
    it meets, which ready case its [select] takes. Go serves the partner
    that has been parked longest; a label may name any parked one, which
    includes Go's choice. *)
Inductive label : Type :=
  | LMain
  | LSrc (j : nat)
  | LSup
  | LWorker (i : nat) (c : pick)
  | LSink (c : pick) (j : nat)
  | LStop (e : error).         (* p.Stop(e) called from outside the stages *)

(** What the goroutines share, and where each of them is. A channel is
    unbuffered: it holds nothing, and who is parked on it is read off the
    program counters. *)
Record state : Type := {
  ctx : context.cancelCtx;     (* the context derived by New *)
  pl : Pipeline;               (* the Pipeline struct, with its WaitGroup *)
  fan_wg : Z;                  (* the WaitGroup local to FanOut *)
  src_closed : bool;           (* whether Source's out is closed *)
  fan_closed : bool;           (* whether FanOut's out is closed *)
  main : main_pc;              (* the driver *)
  src : src_pc;                (* Source's task *)
  sup : sup_pc;                (* FanOut's supervising task *)
  workers : list worker_pc;    (* FanOut's workers, by index *)
  snk : sink_pc;               (* Sink's task *)
  consumed : list Out;         (* what the Sink's fn was called with *)
  panicked : bool              (* a goroutine panicked *)
}.

Definition set_ctx (v : context.cancelCtx) (s : state) : state :=
  {| ctx := v; pl := pl s; fan_wg := fan_wg s; src_closed := src_closed s;
     fan_closed := fan_closed s; main := main s; src := src s;
     sup := sup s; workers := workers s; snk := snk s;
     consumed := consumed s; panicked := panicked s |}.

Definition set_pl (v : Pipeline) (s : state) : state :=
  {| ctx := ctx s; pl := v; fan_wg := fan_wg s; src_closed := src_closed s;
     fan_closed := fan_closed s; main := main s; src := src s;
     sup := sup s; workers := workers s; snk := snk s;
     consumed := consumed s; panicked := panicked s |}.

Definition set_fan_wg (v : Z) (s : state) : state :=
  {| ctx := ctx s; pl := pl s; fan_wg := v; src_closed := src_closed s;
     fan_closed := fan_closed s; main := main s; src := src s;
     sup := sup s; workers := workers s; snk := snk s;
     consumed := consumed s; panicked := panicked s |}.

Definition set_src_closed (v : bool) (s : state) : state :=
  {| ctx := ctx s; pl := pl s; fan_wg := fan_wg s; src_closed := v;
     fan_closed := fan_closed s; main := main s; src := src s;
     sup := sup s; workers := workers s; snk := snk s;
     consumed := consumed s; panicked := panicked s |}.

Definition set_fan_closed (v : bool) (s : state) : state :=
  {| ctx := ctx s; pl := pl s; fan_wg := fan_wg s;
     src_closed := src_closed s; fan_closed := v; main := main s;
     src := src s; sup := sup s; workers := workers s; snk := snk s;
     consumed := consumed s; panicked := panicked s |}.

Definition set_main (v : main_pc) (s : state) : state :=
  {| ctx := ctx s; pl := pl s; fan_wg := fan_wg s;
     src_closed := src_closed s; fan_closed := fan_closed s; main := v;
     src := src s; sup := sup s; workers := workers s; snk := snk s;
     consumed := consumed s; panicked := panicked s |}.

Definition set_src (v : src_pc) (s : state) : state :=
  {| ctx := ctx s; pl := pl s; fan_wg := fan_wg s;
     src_closed := src_closed s; fan_closed := fan_closed s;
     main := main s; src := v; sup := sup s; workers := workers s;
     snk := snk s; consumed := consumed s; panicked := panicked s |}.

Definition set_sup (v : sup_pc) (s : state) : state :=
  {| ctx := ctx s; pl := pl s; fan_wg := fan_wg s;
     src_closed := src_closed s; fan_closed := fan_closed s;
     main := main s; src := src s; sup := v; workers := workers s;
     snk := snk s; consumed := consumed s; panicked := panicked s |}.

Definition set_workers (v : list worker_pc) (s : state) : state :=
  {| ctx := ctx s; pl := pl s; fan_wg := fan_wg s;
     src_closed := src_closed s; fan_closed := fan_closed s;
     main := main s; src := src s; sup := sup s; workers := v;
     snk := snk s; consumed := consumed s; panicked := panicked s |}.

Definition set_snk (v : sink_pc) (s : state) : state :=
  {| ctx := ctx s; pl := pl s; fan_wg := fan_wg s;
     src_closed := src_closed s; fan_closed := fan_closed s;
     main := main s; src := src s; sup := sup s; workers := workers s;
     snk := v; consumed := consumed s; panicked := panicked s |}.

Definition set_consumed (v : list Out) (s : state) : state :=
  {| ctx := ctx s; pl := pl s; fan_wg := fan_wg s;
     src_closed := src_closed s; fan_closed := fan_closed s;
     main := main s; src := src s; sup := sup s; workers := workers s;
     snk := snk s; consumed := v; panicked := panicked s |}.

Definition set_panicked (v : bool) (s : state) : state :=
  {| ctx := ctx s; pl := pl s; fan_wg := fan_wg s;
     src_closed := src_closed s; fan_closed := fan_closed s;
     main := main s; src := src s; sup := sup s; workers := workers s;
     snk := snk s; consumed := consumed s; panicked := v |}.

Context (fn : In → Out * error) (workerCount : Z) (gen : list gen_op).
Context (parent : context.cancelCtx) (lg : option log.Logger).

(** The state right after [p, ctx := pipeline.New(parent, WithLogger(lg))]. *)
Definition init : state :=
  let '(p, c) := New parent [WithLogger lg] in
  {| ctx := c; pl := p; fan_wg := 0; src_closed := false; fan_closed := false;
     main := MSource; src := SrcNone; sup := SupNone; workers := [];
     snk := SnkNone; consumed := []; panicked := false |}.

Definition is_park_recv (w : worker_pc) : bool :=
  match w with WParkRecv => true | _ => false end.

Definition is_park_send (w : worker_pc) : bool :=
  match w with WParkSend _ => true | _ => false end.

(** Whether worker [j] is parked receiving; the value worker [j] is parked
    sending. *)
Definition parked_recv_at (j : nat) (ws : list worker_pc) : bool :=
  match ws !! j with Some w => is_park_recv w | None => false end.

Definition parked_send_at (j : nat) (ws : list worker_pc) : option Out :=
  match ws !! j with Some (WParkSend r) => Some r | _ => None end.

Definition set_worker (i : nat) (w : worker_pc) (s : state) : state :=
  set_workers (<[i := w]> (workers s)) s.

Definition is_src_park (c : src_pc) : bool :=
  match c with SrcPark _ _ => true | _ => false end.

Definition is_snk_park (c : sink_pc) : bool :=
  match c with SnkPark => true | _ => false end.

(** Closing the done channel resumes every parked [select] in its
    [<-ctx.Done()] case, which returns. *)
Definition wake_cancel (w : worker_pc) : worker_pc :=
  match w with WParkRecv | WParkSend _ => WDefer | _ => w end.

Definition wake_cancel_sink (c : sink_pc) : sink_pc :=
  match c with SnkPark => SnkPDone | _ => c end.

(** Closing a channel resumes every receiver parked on it with ok = false,
    which returns. *)
Definition wake_closed (w : worker_pc) : worker_pc :=
  match w with WParkRecv => WDefer | _ => w end.

Definition wake_closed_sink (c : sink_pc) : sink_pc :=
  match c with SnkPark => SnkPDone | _ => c end.

(** [Pipeline.Add], pipeline.go lines 49-55: [p.wg.Add(1)]; the goroutine
    it starts is the program counter that the caller sets. *)
Definition Add (s : state) : state :=
  set_pl {| wg := fst (wg_add 1 (wg (pl s))); logger := logger (pl s) |} s.

(** The deferred [p.wg.Done()] of that goroutine, pipeline.go line 52. *)
Definition Done (s : state) : state :=
  let '(v, neg) := wg_add (-1) (wg (pl s)) in
  set_panicked (panicked s || neg)
    (set_pl {| wg := v; logger := logger (pl s) |} s).

(** [Pipeline.Stop], pipeline.go lines 59-61, on the shared state: the
    call that cancels the context closes its done channel, which resumes
    the goroutines parked on it; a later call changes nothing. *)
Definition stop (e : error) (s : state) : state * list event :=
  if context.done (ctx s) then (s, [])
  else
    let c := Stop e (ctx s) in
    (set_snk (wake_cancel_sink (snk s))
       (set_workers (wake_cancel <$> workers s) (set_ctx c s)),
     [ECancel (context.Cause c)]).

(** [Pipeline.Wait], pipeline.go lines 64-66: whether [p.wg.Wait()] can
    return. *)
Definition Wait (p : Pipeline) : bool := wg p =? 0.

(** The driver, [main]: [Source], [FanOut] and [Sink] each make their
    channel and register one task with [p.Add]; then [p.Wait()]. *)
Definition driver (s : state) : option (state * list event) :=
  match main s with
  | MSource => Some (set_main MFanOut (set_src (SrcRun gen) (Add s)), [])
  | MFanOut => Some (set_main MSink (set_sup (SupLoop 0) (Add s)), [])
  | MSink => Some (set_main MWait (set_snk SnkSel (Add s)), [])
  | MWait => if Wait (pl s) then Some (set_main MExit s, []) else None
  | MExit => None
  end.

(** The task of [Source], lines 13-18: [defer close(out); fn(out)]. The
    generator's send is a plain [out <- x]: it completes with a worker
    that is parked receiving, or parks. *)
Definition Source (j : nat) (s : state) : option (state * list event) :=
  match src s with
  | SrcRun [] =>
      (* fn returned: the deferred close(out) *)
      if src_closed s then Some (set_panicked true s, [ECloseSrc])
      else Some (set_src SrcPDone
                   (set_workers (wake_closed <$> workers s)
                      (set_src_closed true s)), [ECloseSrc])
  | SrcRun (GCheck :: rest) =>
      (* if ctx.Err() != nil { return ctx.Err() } *)
      if context.done (ctx s) then Some (set_src (SrcRun []) s, [])
      else Some (set_src (SrcRun rest) s, [])
  | SrcRun (GStop e :: _) =>
      (* p.Stop(e); return err *)
      let '(s', evs) := stop e s in Some (set_src (SrcRun []) s', evs)
  | SrcRun (GSend x :: rest) =>
      (* out <- x *)
      if src_closed s then Some (set_panicked true s, [])
      else
        if parked_recv_at j (workers s)
        then Some (set_src (SrcRun rest) (set_worker j (WItem x) s), [ERecv j x])
        else if existsb is_park_recv (workers s) then None
        else Some (set_src (SrcPark x rest) s, [])
  | SrcPDone => Some (set_src SrcExit (Done s), [])
  | SrcNone | SrcPark _ _ | SrcExit => None
  end.

(** The supervising task of [FanOut], lines 32-71: the loop that
    registers the workers, [wg.Wait()], [close(out)]. Closing a channel
    on which a sender is parked makes that sender panic. *)
Definition FanOut (s : state) : option (state * list event) :=
  match sup s with
  | SupLoop i =>
      if i <? workerCount
      then Some (set_sup (SupSpawn i) (set_fan_wg (fan_wg s + 1) s), [])
      else Some (set_sup SupWait s, [])
  | SupSpawn i =>
      Some (set_sup (SupLoop (i + 1))
              (set_workers (workers s ++ [WSelRecv]) (Add s)), [])
  | SupWait => if fan_wg s =? 0 then Some (set_sup SupClose s, []) else None
  | SupClose =>
      if fan_closed s || existsb is_park_send (workers s)
      then Some (set_panicked true (set_fan_closed true s), [ECloseFan])
      else Some (set_sup SupPDone
                   (set_snk (wake_closed_sink (snk s)) (set_fan_closed true s)),
                 [ECloseFan])
  | SupPDone => Some (set_sup SupExit (Done s), [])
  | SupNone | SupExit => None
  end.

(** One worker of [FanOut], lines 35-65. *)
Definition FanOut_worker (i : nat) (c : pick) (s : state)
  : option (state * list event) :=
  match workers s !! i with
  | Some WSelRecv =>
      (* select { case item, ok := <-in: ...; case <-ctx.Done(): return } *)
      let ready := is_src_park (src s) || src_closed s in
      match c with
      | TakeComm =>
          match src s with
          | SrcPark x rest =>
              Some (set_src (SrcRun rest) (set_worker i (WItem x) s), [ERecv i x])
          | _ =>
              if src_closed s then Some (set_worker i WDefer s, [])
              else if context.done (ctx s) then None
              else Some (set_worker i WParkRecv s, [])
          end
      | TakeDone =>
          if context.done (ctx s) then Some (set_worker i WDefer s, [])
          else if ready then None
          else Some (set_worker i WParkRecv s, [])
      end
  | Some (WItem x) =>
      (* result, err := fn(item) *)
      let '(r, e) := fn x in
      if is_nil e then Some (set_worker i (WSelSend r) s, [])
      else Some (set_worker i (WStop e) s, [])
  | Some (WStop e) =>
      (* p.Stop(err); return *)
      let '(s', evs) := stop e s in Some (set_worker i WDefer s', evs)
  | Some (WSelSend r) =>
      (* select { case out <- result:; case <-ctx.Done(): return } *)
      let ready := fan_closed s || is_snk_park (snk s) in
      match c with
      | TakeComm =>
          if fan_closed s then Some (set_panicked true s, [])
          else if is_snk_park (snk s)
          then Some (set_snk (SnkItem r) (set_worker i WSelRecv s), [ESend i r])
          else if context.done (ctx s) then None
          else Some (set_worker i (WParkSend r) s, [])
      | TakeDone =>
          if context.done (ctx s) then Some (set_worker i WDefer s, [])
          else if ready then None
          else Some (set_worker i (WParkSend r) s, [])
      end
  | Some WDefer =>
      (* the deferred wg.Done() *)
      let '(v, neg) := wg_add (-1) (fan_wg s) in
      Some (set_panicked (panicked s || neg)
              (set_worker i WPDone (set_fan_wg v s)), [])
  | Some WPDone => Some (set_worker i WExit (Done s), [])
  | Some WParkRecv | Some (WParkSend _) | Some WExit | None => None
  end.

(** The task of [Sink], lines 79-93. *)
Definition Sink (c : pick) (j : nat) (s : state)
  : option (state * list event) :=
  match snk s with
  | SnkSel =>
      let ready := existsb is_park_send (workers s) || fan_closed s in
      match c with
      | TakeComm =>
          match parked_send_at j (workers s) with
          | Some r =>
              Some (set_snk (SnkItem r) (set_worker j WSelRecv s), [ESend j r])
          | None =>
              if existsb is_park_send (workers s) then None
              else if fan_closed s then Some (set_snk SnkPDone s, [])
              else if context.done (ctx s) then None
              else Some (set_snk SnkPark s, [])
          end
      | TakeDone =>
          if context.done (ctx s) then Some (set_snk SnkPDone s, [])
          else if ready then None
          else Some (set_snk SnkPark s, [])
      end
  | SnkItem r =>
      (* fn(item) *)
      Some (set_snk SnkSel (set_consumed (consumed s ++ [r]) s), [])
  | SnkPDone => Some (set_snk SnkExit (Done s), [])
  | SnkNone | SnkPark | SnkExit => None
  end.

(** One transition. A panic ends the program. *)
Definition step (l : label) (s : state) : option (state * list event) :=
  if panicked s then None
  else
    match l with
    | LMain => driver s
    | LSrc j => Source j s
    | LSup => FanOut s
    | LWorker i c => FanOut_worker i c s
    | LSink c j => Sink c j s
    | LStop e => Some (stop e s)
    end.

(** A schedule run from a state, with the events it produces in order. *)
Fixpoint exec (ls : list label) (s : state) : option (state * list event) :=
  match ls with
  | [] => Some (s, [])
  | l :: ls =>
      match step l s with
      | Some (s', evs) =>
          match exec ls s' with
          | Some (s'', evs') => Some (s'', evs ++ evs')
          | None => None
          end
      | None => None
      end
  end.

(** The values whose send on FanOut's output was completed, in order. *)
Definition sent (tr : list event) : list Out :=
  omap (fun ev => match ev with ESend _ r => Some r | _ => None end) tr.

(** The items received from Source's output, in order. *)
Definition received (tr : list event) : list In :=
  omap (fun ev => match ev with ERecv _ x => Some x | _ => None end) tr.

Definition is_close_src (ev : event) : bool :=
  match ev with ECloseSrc => true | _ => false end.

Definition is_close_fan (ev : event) : bool :=
  match ev with ECloseFan => true | _ => false end.

(** The items a generator sends when nothing stops it. *)
Definition sends (prog : list gen_op) : list In :=
  omap (fun op => match op with GSend x => Some x | _ => None end) prog.

(** The result of a transform invocation that succeeds. *)
Definition result (x : In) : option Out :=
  let '(r, e) := fn x in if is_nil e then Some r else None.

(** *** Vocabulary of the invariants *)

(** How many workers satisfy a test. *)
Fixpoint countw (P : worker_pc → bool) (ws : list worker_pc) : Z :=
  match ws with
  | [] => 0
  | w :: ws => Z.b2z (P w) + countw P ws
  end.

(** The worker has not yet run its deferred [wg.Done()]. *)
Definition active (w : worker_pc) : bool :=
  match w with WPDone | WExit => false | _ => true end.

(** The worker's goroutine has not yet run [p.wg.Done()]. *)
Definition live (w : worker_pc) : bool :=
  match w with WExit => false | _ => true end.

Definition is_parked (w : worker_pc) : bool := is_park_recv w || is_park_send w.

(** The worker has left its loop. *)
Definition returned (w : worker_pc) : bool :=
  match w with WDefer | WPDone | WExit => true | _ => false end.

Definition src_live (c : src_pc) : Z :=
  match c with SrcNone | SrcExit => 0 | _ => 1 end.

Definition sup_live (c : sup_pc) : Z :=
  match c with SupNone | SupExit => 0 | _ => 1 end.

Definition snk_live (c : sink_pc) : Z :=
  match c with SnkNone | SnkExit => 0 | _ => 1 end.

(** The generator has returned. *)
Definition src_returned (c : src_pc) : bool :=
  match c with SrcPDone | SrcExit => true | _ => false end.

(** The items the generator has still to send. *)
Definition pending (c : src_pc) : list In :=
  match c with
  | SrcNone => sends gen
  | SrcRun prog => sends prog
  | SrcPark x rest => x :: sends rest
  | SrcPDone | SrcExit => []
  end.

(** The result a worker has in hand and has still to send. *)
Definition held (w : worker_pc) : list Out :=
  match w with
  | WItem x => option_list (result x)
  | WSelSend r | WParkSend r => [r]
  | _ => []
  end.

Definition held_snk (c : sink_pc) : list Out :=
  match c with SnkItem r => [r] | _ => [] end.

(** The task was registered by the driver. *)
Definition src_started (c : src_pc) : bool :=
  match c with SrcNone => false | _ => true end.

Definition sup_started (c : sup_pc) : bool :=
  match c with SupNone => false | _ => true end.

Definition snk_started (c : sink_pc) : bool :=
  match c with SnkNone => false | _ => true end.

Definition past_source (m : main_pc) : bool :=
  match m with MSource => false | _ => true end.

Definition past_fanout (m : main_pc) : bool :=
  match m with MSource | MFanOut => false | _ => true end.

Definition past_sink (m : main_pc) : bool :=
  match m with MSource | MFanOut | MSink => false | _ => true end.

Definition is_exit (m : main_pc) : bool :=
  match m with MExit => true | _ => false end.

(** The supervising task is past [wg.Wait()]; it has run [close(out)]. *)
Definition sup_waited (c : sup_pc) : bool :=
  match c with SupClose | SupPDone | SupExit => true | _ => false end.

Definition sup_closed (c : sup_pc) : bool :=
  match c with SupPDone | SupExit => true | _ => false end.

(** How many workers the supervising task has registered. *)
Definition spawned (c : sup_pc) : Z :=
  match c with
  | SupNone => 0
  | SupLoop i | SupSpawn i => i
  | _ => Z.max 0 workerCount
  end.

(** The [wg.Add(1)] that the supervising task has made for a worker that
    it has not registered yet. *)
Definition sup_ahead (c : sup_pc) : Z :=
  match c with SupSpawn _ => 1 | _ => 0 end.

Definition loop_bounds (c : sup_pc) : Prop :=
  match c with
  | SupLoop i => 0 ≤ i ≤ Z.max 0 workerCount
  | SupSpawn i => 0 ≤ i < workerCount
  | _ => True
  end.

(** The structural invariant of the pipeline. *)
Record wf (s : state) : Prop := {
  wf_panic : panicked s = false;
  wf_src_spawn : src_started (src s) = past_source (main s);
  wf_sup_spawn : sup_started (sup s) = past_fanout (main s);
  wf_snk_spawn : snk_started (snk s) = past_sink (main s);
  wf_src_closed : src_closed s = src_returned (src s);
  wf_fan_closed : fan_closed s = sup_closed (sup s);
  wf_loop : loop_bounds (sup s);
  wf_spawned : Z.of_nat (length (workers s)) = spawned (sup s);
  wf_fan_wg : fan_wg s = countw active (workers s) + sup_ahead (sup s);
  wf_waited : sup_waited (sup s) = true → countw active (workers s) = 0;
  wf_wg :
    wg (pl s) =
      src_live (src s) + sup_live (sup s) + countw live (workers s) +
      snk_live (snk s);
  wf_exit : is_exit (main s) = true → wg (pl s) = 0;
  wf_cancel :
    context.done (ctx s) = true →
    countw is_parked (workers s) = 0 ∧ is_snk_park (snk s) = false;
  wf_park_src :
    is_src_park (src s) || src_closed s = true →
    countw is_park_recv (workers s) = 0;
  wf_park_snk :
    is_snk_park (snk s) = true → countw is_park_send (workers s) = 0;
  wf_closed_snk : fan_closed s = true → is_snk_park (snk s) = false
}.

(** The outputs of the transform invocations that succeed on [xs]. *)
Definition transformed (xs : list In) : list Out :=
  xs ≫= (λ x, option_list (result x)).

(** Where the items are: what the Sink has been given is what was sent to
    it; what was sent and what the workers hold comes from what the
    workers received; and what was received and what the generator has
    still to send is an initial part of the generator's items. *)
Record flow (tr : list event) (s : state) : Prop := {
  flow_sink : consumed s ++ held_snk (snk s) = sent tr;
  flow_fan : sent tr ++ (workers s ≫= held) ⊆+ transformed (received tr);
  flow_src : received tr ++ pending (src s) `prefix_of` sends gen
}.

(** The same with one worker at most and no cancellation: nothing is
    dropped and the order is kept. *)
Record ordered (tr : list event) (s : state) : Prop := {
  ord_fan : sent tr ++ (workers s ≫= held) = transformed (received tr);
  ord_src : received tr ++ pending (src s) = sends gen
}.

Fixpoint count_events (P : event → bool) (tr : list event) : nat :=
  match tr with
  | [] => 0%nat
  | ev :: tr => ((if P ev then 1 else 0) + count_events P tr)%nat
  end.

Definition snk_returned (c : sink_pc) : bool :=
  match c with SnkPDone | SnkExit => true | _ => false end.

(** Without cancellation a worker leaves its loop only when its input is
    closed, and the Sink only when its input is closed. *)
Record quiet (s : state) : Prop := {
  quiet_workers :
    context.done (ctx s) = false → 0 < countw returned (workers s) →
    src_closed s = true;
  quiet_sink :
    context.done (ctx s) = false → snk_returned (snk s) = true →
    fan_closed s = true
}.

(** The worker cannot move by itself. *)
Definition blocked (w : worker_pc) : bool :=
  match w with WParkRecv | WParkSend _ | WExit => true | _ => false end.

(** *** A bound on the length of a run

    Every transition that changes the state lowers [measure]. An item
    weighs more where it has more of its way to go: in the generator, in a
    worker's hands, in the Sink's hands. *)

Definition op_weight (op : gen_op) : Z :=
  match op with GSend _ => 10 | _ => 1 end.

Fixpoint prog_weight (prog : list gen_op) : Z :=
  match prog with
  | [] => 0
  | op :: prog => op_weight op + prog_weight prog
  end.

Definition main_weight (m : main_pc) : Z :=
  match m with MSource => 4 | MFanOut => 3 | MSink => 2 | MWait => 1 | MExit => 0 end.

Definition src_weight (c : src_pc) : Z :=
  match c with
  | SrcNone => prog_weight gen + 2
  | SrcRun prog => prog_weight prog + 2
  | SrcPark _ rest => prog_weight rest + 11
  | SrcPDone => 1
  | SrcExit => 0
  end.

Definition sup_weight (c : sup_pc) : Z :=
  match c with
  | SupNone => 6 * Z.max 0 workerCount + 4
  | SupLoop i => 6 * Z.max 0 (workerCount - i) + 4
  | SupSpawn i => 6 * Z.max 0 (workerCount - i - 1) + 9
  | SupWait => 3
  | SupClose => 2
  | SupPDone => 1
  | SupExit => 0
  end.

Definition worker_weight (w : worker_pc) : Z :=
  match w with
  | WSelRecv => 4
  | WParkRecv => 3
  | WItem _ => 10
  | WStop _ => 9
  | WSelSend _ => 9
  | WParkSend _ => 8
  | WDefer => 2
  | WPDone => 1
  | WExit => 0
  end.

Fixpoint workers_weight (ws : list worker_pc) : Z :=
  match ws with
  | [] => 0
  | w :: ws => worker_weight w + workers_weight ws
  end.

Definition snk_weight (c : sink_pc) : Z :=
  match c with
  | SnkNone => 3
  | SnkSel => 3
  | SnkPark => 2
  | SnkItem _ => 4
  | SnkPDone => 1
  | SnkExit => 0
  end.

Definition measure (s : state) : Z :=
  main_weight (main s) + src_weight (src s) + sup_weight (sup s) +
  workers_weight (workers s) + snk_weight (snk s) +
  (if context.done (ctx s) then 0 else 1).

(** A transition of the program, as opposed to a [Stop] from outside. *)
Definition is_stop (l : label) : bool :=
  match l with LStop _ => true | _ => false end.

(** Each output channel has been closed as many times as [close] was
    called on it: once, or not yet. *)
Definition closes (tr : list event) (s : state) : Prop :=
  count_events is_close_src tr = (if src_closed s then 1 else 0)%nat ∧
  count_events is_close_fan tr = (if fan_closed s then 1 else 0)%nat.

(** The states a schedule reaches from [init], with the events so far. *)
Inductive reach : list event → state → Prop :=
  | reach_init : reach [] init
  | reach_step tr s l s' evs :
      reach tr s → step l s = Some (s', evs) → reach (tr ++ evs) s'.

(** No goroutine of the program can move: every transition that is still
    possible is a [Stop] that changes nothing. *)
Definition stuck (s : state) : Prop :=
  ∀ l s' evs, step l s = Some (s', evs) → s' = s ∧ evs = [].

End model.

Arguments gen_op : clear implicits.
Arguments walk_entry : clear implicits.
Arguments src_pc : clear implicits.
Arguments worker_pc : clear implicits.
Arguments sink_pc : clear implicits.
Arguments event : clear implicits.
Arguments state : clear implicits.

(** ** The driver's last test and concrete pipelines *)

(** [main], after [p.Wait()]: the run failed when the cause is neither nil
    nor [context.Canceled]. *)
Definition failed (cs : error) : bool :=
  negb (is_nil cs) && negb (bool_decide (cs = Canceled)).

(** A transform that never fails. *)
Definition square (x : Z) : Z * error := (x * x, nil).

(** A transform that fails on one item, as [os.Open] does on a file it
    cannot open. *)
Definition fails_on (bad : Z) (x : Z) : Z * error :=
  if x =? bad then (0, Errorf "open") else (x * x, nil).

(** [main]'s generator over two regular files. *)
Definition two_files : list (gen_op Z) := walk [Regular 1; Regular 2].

(** The scenario of the specification: the Source emits 1..5. *)
Definition five_items : list (gen_op Z) := walk (Regular <$> [1; 2; 3; 4; 5]).

(** One worker; it takes the first item; the generator passes its test of
    [ctx.Err()] and parks in [out <- 2]; then the pipeline is stopped from
    outside; every other goroutine leaves through [<-ctx.Done()]. *)
Definition stop_schedule : list label :=
  [LMain; LMain; LMain; LSup; LSup; LSup;
   LSrc 0; LSrc 0; LWorker 0 TakeComm; LSrc 0; LSrc 0;
   LStop nil;
   LWorker 0 TakeComm; LWorker 0 TakeDone; LWorker 0 TakeDone; LWorker 0 TakeDone;
   LSup; LSup; LSup; LSink TakeDone 0; LSink TakeDone 0].

(** The same with a transform that fails on the first item: the worker
    itself stops the pipeline. *)
Definition error_schedule : list label :=
  [LMain; LMain; LMain; LSup; LSup; LSup;
   LSrc 0; LSrc 0; LWorker 0 TakeComm; LSrc 0; LSrc 0;
   LWorker 0 TakeComm; LWorker 0 TakeComm; LWorker 0 TakeComm; LWorker 0 TakeComm;
   LSup; LSup; LSup; LSink TakeDone 0; LSink TakeDone 0].

(** The state both schedules end in: the Source's task is parked in its
    send, every other task is gone, the driver is in [p.Wait()]. *)
Definition parked_source (c : context.cancelCtx) : state Z Z :=
  {| ctx := c; pl := {| wg := 1; logger := None |}; fan_wg := 0;
     src_closed := false; fan_closed := true;
     main := MWait; src := SrcPark 2 []; sup := SupExit; workers := [WExit];
     snk := SnkExit; consumed := []; panicked := false |}.

(** A run of the scenario to its end, one item at a time. *)
Definition five_schedule : list label :=
  [LMain; LMain; LMain; LSup; LSup; LSup] ++
  mjoin (replicate 5
    [LSrc 0; LSrc 0; LWorker 0 TakeComm; LWorker 0 TakeComm;
     LWorker 0 TakeComm; LSink TakeComm 0; LSink TakeComm 0]) ++
  [LSrc 0; LWorker 0 TakeComm; LWorker 0 TakeComm; LWorker 0 TakeComm;
   LSup; LSup; LSup; LSink TakeComm 0; LSink TakeComm 0; LSrc 0; LMain].

(** Two workers: worker 1 takes the second item and is the first to send,
    so the Sink is given 4 before 1. *)
Definition two_workers_schedule : list label :=
  [LMain; LMain; LMain; LSup; LSup; LSup; LSup; LSup;
   LSrc 0; LSrc 0; LWorker 0 TakeComm; LSrc 0; LSrc 0; LWorker 1 TakeComm;
   LSrc 0; LSrc 0;
   LWorker 1 TakeComm; LWorker 1 TakeComm; LSink TakeComm 1; LSink TakeComm 0;
   LWorker 0 TakeComm; LWorker 0 TakeComm; LSink TakeComm 0; LSink TakeComm 0;
   LWorker 0 TakeComm; LWorker 0 TakeComm; LWorker 0 TakeComm;
   LWorker 1 TakeComm; LWorker 1 TakeComm; LWorker 1 TakeComm;
   LSup; LSup; LSup; LSink TakeComm 0; LSink TakeComm 0; LMain].

(** No worker: the supervising task closes its output at once, the Sink
    returns, the generator parks in its first send. *)
Definition no_worker_schedule : list label :=
  [LMain; LMain; LMain; LSup; LSup; LSup; LSrc 0; LSrc 0; LSup;
   LSink TakeComm 0; LSink TakeComm 0].

(** The state of a pipeline that has run to its end. *)
Definition all_done (ws : list (worker_pc Z Z)) (out : list Z) : state Z Z :=
  {| ctx := context.Background; pl := {| wg := 0; logger := None |}; fan_wg := 0;
     src_closed := true; fan_closed := true;
     main := MExit; src := SrcExit; sup := SupExit; workers := ws;
     snk := SnkExit; consumed := out; panicked := false |}.

Definition five_trace : list (event Z Z) :=
  [ERecv 0 1; ESend 0 1; ERecv 0 2; ESend 0 4; ERecv 0 3; ESend 0 9;
   ERecv 0 4; ESend 0 16; ERecv 0 5; ESend 0 25; ECloseSrc; ECloseFan].

Definition two_workers_trace : list (event Z Z) :=
  [ERecv 0 1; ERecv 1 2; ECloseSrc; ESend 1 4; ESend 0 1; ECloseFan].

(** A context cancelled by [Stop] with the cause [cs] recorded. *)
Definition stopped (cs : error) : context.cancelCtx :=
  {| context.err := Canceled; context.cause := cs |}.

(** [stop_schedule] up to the point where the pipeline is stopped and the
    worker has its result in hand, about to send it. *)
Definition cancelled_before_send : state Z Z :=
  {| ctx := stopped Canceled; pl := {| wg := 4; logger := None |}; fan_wg := 1;
     src_closed := false; fan_closed := false;
     main := MWait; src := SrcPark 2 []; sup := SupWait; workers := [WSelSend 1];
     snk := SnkSel; consumed := []; panicked := false |}.

(** Where [no_worker_schedule] ends. *)
Definition no_worker_end : state Z Z :=
  {| ctx := context.Background; pl := {| wg := 1; logger := None |}; fan_wg := 0;
     src_closed := false; fan_closed := true;
     main := MWait; src := SrcPark 1 [GCheck; GSend 2]; sup := SupExit;
     workers := []; snk := SnkExit; consumed := []; panicked := false |}.

(** ** Runs of the pipeline: further vocabulary *)

(** How many transitions of the program, as opposed to calls of [Stop]
    from outside, a schedule is made of. *)
Fixpoint moves (ls : list label) : nat :=
  match ls with
  | [] => 0%nat
  | l :: ls => ((if is_stop l then 0 else 1) + moves ls)%nat
  end.

Section runs.

Context {In Out : Type}.
Context (fn : In → Out * error) (workerCount : Z) (gen : list (gen_op In)).

(** No goroutine of the program has a transition. *)
Definition halted (s : state In Out) : Prop :=
  ∀ l, is_stop l = false → step fn workerCount gen l s = None.

(** Where the items are when the context is not cancelled: what was sent
    and what the workers hold is a rearrangement of the transforms of what
    the workers received, and what was received and what the generator has
    still to send is all of the generator's items. *)
Record lossless (tr : list (event In Out)) (s : state In Out) : Prop := {
  ll_fan : sent tr ++ (workers s ≫= held fn) ≡ₚ transformed fn (received tr);
  ll_src : received tr ++ pending gen (src s) = sends gen
}.

Definition is_sel_recv (w : worker_pc In Out) : bool :=
  match w with WSelRecv => true | _ => false end.

(** The receives that are still possible once the context is cancelled:
    one for each worker that is arriving at its first [select], and one
    for each worker that is not registered yet. *)
Definition recv_budget (s : state In Out) : Z :=
  countw is_sel_recv (workers s) +
  (Z.max 0 workerCount - Z.of_nat (length (workers s))).

(** The causes with which the context was cancelled in a run. *)
Definition cancels (tr : list (event In Out)) : list error :=
  omap (fun ev => match ev with ECancel cs => Some cs | _ => None end) tr.

Definition is_failed (en : walk_entry In) : bool :=
  match en with Failed _ _ => true | _ => false end.

Definition regular_path (en : walk_entry In) : option In :=
  match en with Regular path => Some path | _ => None end.

(** The actions the generator has still to run. *)
Definition remaining (c : src_pc In) : list (gen_op In) :=
  match c with
  | SrcNone => gen
  | SrcRun prog => prog
  | SrcPark _ rest => rest
  | SrcPDone | SrcExit => []
  end.

(** Where what a worker has in hand comes from: the item it is about to
    transform was received; the error it is about to stop the pipeline
    with is not nil and was returned by the transform on an item that was
    received. *)
Definition traced (tr : list (event In Out)) (w : worker_pc In Out) : Prop :=
  match w with
  | WItem x => x ∈ received tr
  | WStop e => is_nil e = false ∧ ∃ x, x ∈ received tr ∧ (fn x).2 = e
  | _ => True
  end.

(** The cause that a first [Stop(e)] records. *)
Definition recorded (e : error) : error := if is_nil e then Canceled else e.

(** Who cancelled the context with the cause [c]: a [Stop] from outside,
    the generator, or a worker whose transform failed. *)
Definition stop_origin (ls : list label) (tr : list (event In Out)) (c : error)
  : Prop :=
  (∃ e, LStop e ∈ ls ∧ c = recorded e) ∨
  (∃ e, GStop e ∈ gen ∧ c = recorded e) ∨
  (is_nil c = false ∧ ∃ x, x ∈ received tr ∧ (fn x).2 = c).

(** The generator's call of [p.Stop]. *)
Definition is_gstop (op : gen_op In) : bool :=
  match op with GStop _ => true | _ => false end.

End runs.

(** ** Further concrete pipelines *)

(** The state in which the driver has just registered the three tasks of
    a pipeline over the generator [g], with context [c]. *)
Definition registered (c : context.cancelCtx) (g : list (gen_op Z)) : state Z Z :=
  {| ctx := c; pl := {| wg := 3; logger := None |}; fan_wg := 0;
     src_closed := false; fan_closed := false;
     main := MWait; src := SrcRun g; sup := SupLoop 0; workers := [];
     snk := SnkSel; consumed := []; panicked := false |}.

(** The pipeline is stopped from outside right then. *)
Definition early_stop_schedule : list label :=
  [LMain; LMain; LMain; LStop (Errorf "halt")].

(** The state of a pipeline that was cancelled and has run to its end. *)
Definition finished (c : context.cancelCtx) (ws : list (worker_pc Z Z))
    (out : list Z) : state Z Z :=
  {| ctx := c; pl := {| wg := 0; logger := None |}; fan_wg := 0;
     src_closed := true; fan_closed := true;
     main := MExit; src := SrcExit; sup := SupExit; workers := ws;
     snk := SnkExit; consumed := out; panicked := false |}.

(** A walk that passes a directory and a regular file and then fails. *)
Definition failing_walk : list (walk_entry Z) :=
  [Irregular; Regular 1] ++ Failed "dir/b" (Errorf "denied") :: [Regular 2].

(** One worker takes the file; the generator then stops the pipeline and
    returns; every goroutine leaves and [Wait] returns. *)
Definition failing_walk_schedule : list label :=
  [LMain; LMain; LMain; LSup; LSup; LSup;
   LSrc 0; LSrc 0; LWorker 0 TakeComm; LSrc 0; LSrc 0; LSrc 0; LSrc 0;
   LWorker 0 TakeComm; LWorker 0 TakeDone; LWorker 0 TakeDone; LWorker 0 TakeDone;
   LSup; LSup; LSup; LSink TakeDone 0; LSink TakeDone 0; LMain].

(** A walk that meets no regular file before it fails. *)
Definition no_file_walk : list (walk_entry Z) :=
  [Irregular; Failed "dir" (Errorf "denied")].

(** The generator parks in its first send before any worker is
    registered, and the pipeline is stopped from outside; the worker that
    is registered afterwards finds both cases of its first [select]
    ready, and may take the item. *)
Definition parked_then_stopped : list label :=
  [LMain; LMain; LMain; LSrc 0; LSrc 0; LStop nil].

Definition late_receive : state Z Z :=
  {| ctx := stopped Canceled; pl := {| wg := 4; logger := None |}; fan_wg := 1;
     src_closed := false; fan_closed := false;
     main := MWait; src := SrcRun [GCheck; GSend 2]; sup := SupLoop 1;
     workers := [WItem 1]; snk := SnkSel; consumed := []; panicked := false |}.

(** ** The logger *)




(** ** FanOut without workers: the Sink is parked first *)

(** The Sink has arrived at its [select] and is parked in it when the
    supervising task of [FanOut] has just been registered. *)
Definition sink_parked_first : state Z Z :=
  {| ctx := context.Background; pl := {| wg := 3; logger := None |}; fan_wg := 0;
     src_closed := false; fan_closed := false;
     main := MWait; src := SrcRun two_files; sup := SupLoop 0; workers := [];
     snk := SnkPark; consumed := []; panicked := false |}.

(** * Proofs *)

Set Default Proof Using "Type".

(** ** Lists of workers, traces, weights *)

Section counting.

Context {In Out : Type}.
Implicit Types (P Q : worker_pc In Out → bool).
Implicit Types (ws : list (worker_pc In Out)) (w : worker_pc In Out).

Lemma countw_nonneg P ws : 0 ≤ countw P ws.
Proof. induction ws as [|w ws IH]; simpl; [lia|]. destruct (P w); simpl; lia. Qed.

Lemma countw_app P ws1 ws2 : countw P (ws1 ++ ws2) = countw P ws1 + countw P ws2.
Proof. induction ws1 as [|w ws1 IH]; simpl; lia. Qed.

Lemma countw_insert P ws i w w' :
  ws !! i = Some w →
  countw P (<[i:=w']> ws) = countw P ws - Z.b2z (P w) + Z.b2z (P w').
Proof.
  revert i. induction ws as [|v ws IH]; intros [|i] Hi; simplify_eq/=; [lia|].
  rewrite (IH i Hi). lia.
Qed.

Lemma countw_fmap P Q (f : worker_pc In Out → worker_pc In Out) ws :
  (∀ w, P (f w) = Q w) → countw P (f <$> ws) = countw Q ws.
Proof.
  intros Hf. induction ws as [|w ws IH]; simpl; [done|].
  rewrite Hf. f_equal. apply IH.
Qed.

Lemma countw_le P Q ws :
  (∀ w, P w = true → Q w = true) → countw P ws ≤ countw Q ws.
Proof.
  intros HPQ. induction ws as [|w ws IH]; simpl; [lia|].
  specialize (HPQ w). destruct (P w), (Q w); simpl; lia.
Qed.

Lemma countw_lookup P ws i w : ws !! i = Some w → P w = true → 0 < countw P ws.
Proof.
  revert i. induction ws as [|v ws IH]; intros [|i] Hi HP; simplify_eq/=.
  - rewrite HP. pose proof (countw_nonneg P ws). simpl. lia.
  - specialize (IH i Hi HP). destruct (P v); simpl; lia.
Qed.

Lemma countw_zero P ws : countw P ws = 0 ↔ Forall (λ w, P w = false) ws.
Proof.
  induction ws as [|w ws IH]; simpl.
  - split; [constructor|done].
  - pose proof (countw_nonneg P ws). rewrite Forall_cons, <-IH.
    destruct (P w); simpl; split; try lia; naive_solver lia.
Qed.

Lemma existsb_countw P ws : existsb P ws = negb (countw P ws =? 0).
Proof.
  induction ws as [|w ws IH]; simpl; [done|].
  pose proof (countw_nonneg P ws). rewrite IH.
  destruct (P w); simpl; [|done]. symmetry. apply negb_true_iff, Z.eqb_neq. lia.
Qed.

Lemma countw_length P ws : countw P ws ≤ Z.of_nat (length ws).
Proof. induction ws as [|w ws IH]; simpl; [lia|]. destruct (P w); simpl; lia. Qed.

Lemma parked_recv_at_Some j (ws : list (worker_pc In Out)) :
  parked_recv_at j ws = true → ws !! j = Some WParkRecv.
Proof. unfold parked_recv_at. destruct (ws !! j) as [[]|]; naive_solver. Qed.

Lemma parked_send_at_Some j (ws : list (worker_pc In Out)) r :
  parked_send_at j ws = Some r → ws !! j = Some (WParkSend r).
Proof. unfold parked_send_at. destruct (ws !! j) as [[]|]; naive_solver. Qed.

Lemma existsb_false_countw P (ws : list (worker_pc In Out)) :
  existsb P ws = false → countw P ws = 0.
Proof. rewrite existsb_countw. intros ?%negb_false_iff. lia. Qed.

Lemma existsb_true_countw P (ws : list (worker_pc In Out)) :
  existsb P ws = true → 0 < countw P ws.
Proof.
  rewrite existsb_countw. intros ?%negb_true_iff. pose proof (countw_nonneg P ws). lia.
Qed.

Lemma countw_wake_cancel P (ws : list (worker_pc In Out)) :
  (∀ w, P (wake_cancel w) = P w) →
  countw P (wake_cancel <$> ws) = countw P ws.
Proof. apply countw_fmap. Qed.

Lemma countw_wake_closed P (ws : list (worker_pc In Out)) :
  (∀ w, P (wake_closed w) = P w) →
  countw P (wake_closed <$> ws) = countw P ws.
Proof. apply countw_fmap. Qed.

Lemma countw_fmap_zero P (f : worker_pc In Out → worker_pc In Out) ws :
  (∀ w, P (f w) = false) → countw P (f <$> ws) = 0.
Proof.
  intros Hf. rewrite (countw_fmap P (λ _, false)) by done.
  induction ws; simpl; lia.
Qed.

Lemma countw_parked (ws : list (worker_pc In Out)) :
  countw is_parked ws = countw is_park_recv ws + countw is_park_send ws.
Proof. induction ws as [|[] ws IH]; simpl; lia. Qed.

Lemma countw_park_send_active (ws : list (worker_pc In Out)) :
  countw is_park_send ws ≤ countw active ws.
Proof. apply countw_le. by intros []. Qed.

Lemma countw_parked_wake_closed (ws : list (worker_pc In Out)) :
  countw is_parked (wake_closed <$> ws) = countw is_park_send ws.
Proof. apply countw_fmap. by intros []. Qed.


Lemma src_live_nonneg (c : src_pc In) : 0 ≤ src_live c ≤ 1.
Proof. destruct c; simpl; lia. Qed.
Lemma sup_live_nonneg (c : sup_pc) : 0 ≤ sup_live c ≤ 1.
Proof. destruct c; simpl; lia. Qed.
Lemma snk_live_nonneg (c : sink_pc Out) : 0 ≤ snk_live c ≤ 1.
Proof. destruct c; simpl; lia. Qed.

Lemma prog_weight_nonneg (prog : list (gen_op In)) : 0 ≤ prog_weight prog.
Proof. induction prog as [|[] prog IH]; simpl; lia. Qed.

Lemma workers_weight_nonneg ws : 0 ≤ workers_weight ws.
Proof. induction ws as [|[] ws IH]; simpl; lia. Qed.

Lemma workers_weight_app ws1 ws2 :
  workers_weight (ws1 ++ ws2) = workers_weight ws1 + workers_weight ws2.
Proof. induction ws1 as [|w ws1 IH]; simpl; lia. Qed.

Lemma workers_weight_insert ws i w w' :
  ws !! i = Some w →
  workers_weight (<[i:=w']> ws) = workers_weight ws - worker_weight w + worker_weight w'.
Proof.
  revert i. induction ws as [|v ws IH]; intros [|i] Hi; simplify_eq/=; [lia|].
  rewrite (IH i Hi). lia.
Qed.

Lemma workers_weight_wake_cancel ws :
  workers_weight (wake_cancel <$> ws) ≤ workers_weight ws.
Proof. induction ws as [|[] ws IH]; csimpl in *; lia. Qed.

Lemma workers_weight_wake_closed ws :
  workers_weight (wake_closed <$> ws) ≤ workers_weight ws.
Proof. induction ws as [|[] ws IH]; csimpl in *; lia. Qed.

Lemma snk_weight_wake_cancel (c : sink_pc Out) :
  snk_weight (wake_cancel_sink c) ≤ snk_weight c.
Proof. destruct c; simpl; lia. Qed.

Lemma snk_weight_wake_closed (c : sink_pc Out) :
  snk_weight (wake_closed_sink c) ≤ snk_weight c.
Proof. destruct c; simpl; lia. Qed.

Lemma count_events_app (P : event In Out → bool) tr1 tr2 :
  count_events P (tr1 ++ tr2) = (count_events P tr1 + count_events P tr2)%nat.
Proof. induction tr1 as [|ev tr1 IH]; simpl; lia. Qed.

End counting.

Section flowing.

Context {In Out : Type} (fn : In → Out * error).
Implicit Types (ws : list (worker_pc In Out)) (w : worker_pc In Out).

Lemma insert_Permutation {A} (l : list A) i x y :
  l !! i = Some x → <[i:=y]> l ≡ₚ y :: delete i l.
Proof.
  revert i. induction l as [|z l IH]; intros [|i] Hi; simplify_eq/=; [done|].
  rewrite (IH i Hi). apply Permutation_swap.
Qed.

Lemma held_lookup ws i w :
  ws !! i = Some w → ws ≫= held fn ≡ₚ held fn w ++ (delete i ws ≫= held fn).
Proof. intros Hi. by rewrite (delete_Permutation ws i w Hi) at 1. Qed.

Lemma held_insert ws i w w' :
  ws !! i = Some w →
  <[i:=w']> ws ≫= held fn ≡ₚ held fn w' ++ (delete i ws ≫= held fn).
Proof. intros Hi. by rewrite (insert_Permutation ws i w w' Hi). Qed.

Lemma held_wake_cancel ws : (wake_cancel <$> ws) ≫= held fn ⊆+ ws ≫= held fn.
Proof.
  induction ws as [|w ws IH]; csimpl; [done|].
  destruct w; simpl;
    first [ done | by apply submseteq_skips_l | by apply submseteq_skip
          | by apply submseteq_cons ].
Qed.

Lemma held_wake_closed ws : (wake_closed <$> ws) ≫= held fn = ws ≫= held fn.
Proof. induction ws as [|w ws IH]; csimpl; [done|]. rewrite IH. by destruct w. Qed.

Lemma sent_app (tr1 tr2 : list (event In Out)) : sent (tr1 ++ tr2) = sent tr1 ++ sent tr2.
Proof. apply omap_app. Qed.

Lemma received_app (tr1 tr2 : list (event In Out)) :
  received (tr1 ++ tr2) = received tr1 ++ received tr2.
Proof. apply omap_app. Qed.

Lemma transformed_app xs ys :
  transformed fn (xs ++ ys) = transformed fn xs ++ transformed fn ys.
Proof. apply bind_app. Qed.

Lemma transformed_singleton x : transformed fn [x] = option_list (result fn x).
Proof. unfold transformed. csimpl. by rewrite app_nil_r. Qed.

Lemma held_app ws1 ws2 : (ws1 ++ ws2) ≫= held fn = (ws1 ≫= held fn) ++ (ws2 ≫= held fn).
Proof. apply bind_app. Qed.

Lemma held_stop ws i e :
  ws !! i = Some (WStop e) →
  <[i:=WDefer]> (wake_cancel <$> ws) ≫= held fn ⊆+ ws ≫= held fn.
Proof.
  intros Hi. etrans; [|apply held_wake_cancel].
  rewrite (held_insert (wake_cancel <$> ws) i (WStop e) WDefer)
    by (by rewrite list_lookup_fmap, Hi).
  rewrite (held_lookup (wake_cancel <$> ws) i (WStop e))
    by (by rewrite list_lookup_fmap, Hi).
  done.
Qed.

Lemma result_Some x r e : fn x = (r, e) → is_nil e = true → result fn x = Some r.
Proof. unfold result. by intros -> ->. Qed.

Lemma result_None x r e : fn x = (r, e) → is_nil e = false → result fn x = None.
Proof. unfold result. by intros -> ->. Qed.

End flowing.

(** ** Tactics *)

(** A fact about every program counter of a worker, by cases. *)
Ltac by_cases_w := let w := fresh in intros w; destruct w; reflexivity.

(** Counts and lengths of a list of workers after an update. *)
Ltac countw_simpl :=
  repeat first
    [ rewrite countw_app
    | erewrite countw_insert by eassumption
    | erewrite countw_insert
        by (rewrite list_lookup_fmap;
            match goal with H : _ !! _ = Some _ |- _ => rewrite H end;
            reflexivity)
    | rewrite countw_wake_cancel by by_cases_w
    | rewrite countw_wake_closed by by_cases_w
    | rewrite countw_fmap_zero by by_cases_w
    | rewrite countw_parked_wake_closed
    | rewrite length_app
    | rewrite length_insert
    | rewrite length_fmap ];
  simpl.

(** Inversion of a transition: the state is split into its fields, the
    program counters involved become constructors. *)
Ltac step_inv H :=
  unfold step, driver, Wait, Source, FanOut, FanOut_worker, Sink, stop,
    Done, Add, wg_add, set_worker in H;
  simpl in H;
  repeat (case_match; try done; simplify_eq/=);
  repeat match goal with
  | H : _ || _ = false |- _ => apply orb_false_iff in H as [? ?]
  | H : _ || _ = true |- _ => apply orb_true_iff in H as [?|?]
  | H : parked_recv_at _ _ = true |- _ => apply parked_recv_at_Some in H
  | H : parked_send_at _ _ = Some _ |- _ => apply parked_send_at_Some in H
  | H : existsb _ _ = false |- _ => apply existsb_false_countw in H
  | H : existsb _ _ = true |- _ => apply existsb_true_countw in H
  end.

(** The bounds of the counts and of the tasks that are alive, as facts for
    [lia]. *)
Ltac pc_facts :=
  repeat match goal with
  | c : src_pc _ |- _ =>
      lazymatch goal with
      | _ : 0 ≤ src_live c ≤ 1 |- _ => fail
      | _ => pose proof (src_live_nonneg c)
      end
  | c : sup_pc |- _ =>
      lazymatch goal with
      | _ : 0 ≤ sup_live c ≤ 1 |- _ => fail
      | _ => pose proof (sup_live_nonneg c)
      end
  | c : sink_pc _ |- _ =>
      lazymatch goal with
      | _ : 0 ≤ snk_live c ≤ 1 |- _ => fail
      | _ => pose proof (snk_live_nonneg c)
      end
  end.

Ltac destruct_goal_pcs :=
  repeat match goal with
  | |- context [?f ?x] =>
      is_var x;
      lazymatch type of x with
      | src_pc _ => idtac | sup_pc => idtac | sink_pc _ => idtac | main_pc => idtac
      end;
      destruct x; simpl in *; try done; try lia
  end.

Ltac lookup_facts :=
  repeat match goal with
  | H : ?ws !! ?i = Some ?w |- _ =>
      lazymatch goal with
      | _ : 0 < countw live ws |- _ => fail
      | _ : 0 ≤ countw live ws - 0 |- _ => fail
      | _ =>
          first [ pose proof (countw_lookup live ws i w H eq_refl)
                | assert (0 ≤ countw live ws - 0) by (pose proof (countw_nonneg live ws); lia) ];
          try pose proof (countw_lookup active ws i w H eq_refl);
          try pose proof (countw_lookup is_park_recv ws i w H eq_refl);
          try pose proof (countw_lookup is_park_send ws i w H eq_refl)
      end
  end.

Ltac wf_facts :=
  lookup_facts;
  repeat match goal with
  | ws : list (worker_pc _ _) |- _ =>
      lazymatch goal with
      | _ : 0 ≤ countw active ws |- _ => fail
      | _ => pose proof (countw_nonneg active ws);
             pose proof (countw_nonneg live ws);
             pose proof (countw_nonneg is_park_recv ws);
             pose proof (countw_nonneg is_park_send ws);
             pose proof (countw_park_send_active ws);
             pose proof (countw_parked ws)
      end
  end.

(** The end of a case of an invariant. *)
Ltac crush :=
  try done; try lia;
  try (intuition (simplify_eq/=; try done; try congruence; lia)).

Ltac finish :=
  simpl in *; countw_simpl; crush;
  destruct_goal_pcs; crush;
  repeat match goal with
  | x : src_pc _ |- _ => destruct x
  | x : sup_pc |- _ => destruct x
  | x : sink_pc _ |- _ => destruct x
  end;
  simpl in *; crush.

(** What the workers hold, after an update of one of them. *)
Ltac held_simpl Hf :=
  rewrite ?held_wake_closed, ?held_app, ?transformed_app, ?transformed_singleton in *;
  try match goal with
  | H : ?ws !! ?i = Some ?w |- context [<[?i:=?w']> ?ws ≫= held ?fn] =>
      rewrite (held_insert fn ws i w w' H);
      rewrite (held_lookup fn ws i w H) in Hf
  end;
  simpl in *;
  try match goal with
  | H1 : ?fn ?x = (?r, ?e), H2 : is_nil ?e = true |- _ =>
      rewrite (result_Some fn x r e H1 H2) in *
  | H1 : ?fn ?x = (?r, ?e), H2 : is_nil ?e = false |- _ =>
      rewrite (result_None fn x r e H1 H2) in *
  end;
  simpl in *; rewrite ?app_nil_r in *.

Ltac solve_flow_fan Hf :=
  held_simpl Hf;
  first
    [ exact Hf
    | etrans; [|exact Hf]; solve_submseteq
    | etrans; [|apply submseteq_skips_r, Hf]; solve_submseteq
    | etrans; [|exact Hf]; apply submseteq_skips_l, held_wake_cancel
    | etrans; [|exact Hf]; eapply submseteq_skips_l, held_stop; eassumption ].

Ltac unfold_step := unfold step.
Ltac unfold_measure := unfold measure.
Ltac unfold_transformed := unfold transformed in *.

(** The state split into its fields, and an invariant into its parts,
    under fixed names. *)
Ltac split_state s :=
  destruct s as [cx pp fw closed1 closed2 m sr su ws sk out pan].

Ltac split_wf H :=
  destruct H as [Hpanic Hsrc_spawn Hsup_spawn Hsnk_spawn Hclosed1 Hclosed2
                 Hloop Hspawned Hfan_wg Hwaited Hwg Hexit Hcancel Hpark_src
                 Hpark_snk Hclosed_snk].

(** ** The pipeline *)

Section proofs.

Context {In Out : Type} (fn : In → Out * error) (workerCount : Z).
Context (gen : list (gen_op In)).
Context (parent : context.cancelCtx) (lg : option log.Logger).

Local Abbreviation state := (state In Out).
Local Abbreviation step := (step fn workerCount gen).
Local Abbreviation exec := (exec fn workerCount gen).
Local Abbreviation wf := (wf (In:=In) (Out:=Out) workerCount).
Local Abbreviation init := (init (In:=In) (Out:=Out) parent lg).
Local Abbreviation reach := (reach fn workerCount gen parent lg).
Local Abbreviation flow := (flow fn gen).
Local Abbreviation ordered := (ordered fn gen).
Local Abbreviation measure := (measure workerCount gen).
Local Abbreviation transformed := (transformed fn).

Lemma done_Stop e c : context.done (Stop e c) = true.
Proof. destruct c as [[] ?]; destruct e; done. Qed.

Lemma done_WithCancelCause c : context.done (context.WithCancelCause c) = context.done c.
Proof. destruct c as [[] ?]; done. Qed.

Lemma wf_init : wf init.
Proof.
  constructor; simpl; try done; try naive_solver.
Qed.

Lemma stop_inv e (s s' : state) evs :
  stop e s = (s', evs) →
  (context.done (ctx s) = true ∧ s' = s ∧ evs = []) ∨
  (context.done (ctx s) = false ∧
   s' = set_snk (wake_cancel_sink (snk s))
          (set_workers (wake_cancel <$> workers s) (set_ctx (Stop e (ctx s)) s)) ∧
   evs = [ECancel (context.Cause (Stop e (ctx s)))]).
Proof. unfold stop. case_match; naive_solver. Qed.

Lemma wf_step s l s' evs : wf s → step l s = Some (s', evs) → wf s'.
Proof.
  intros Hwf H. split_state s; split_wf Hwf; simpl in *. step_inv H.
  all: wf_facts; pc_facts.
  all: constructor; finish.
Qed.

Lemma wf_reach tr s : reach tr s → wf s.
Proof. induction 1; eauto using wf_init, wf_step. Qed.

Lemma exec_reach ls : ∀ tr s s' evs,
  reach tr s → exec ls s = Some (s', evs) → reach (tr ++ evs) s'.
Proof.
  induction ls as [|l ls IH]; intros tr s s' evs Hr He; simpl in He.
  - simplify_eq. by rewrite app_nil_r.
  - destruct (step l s) as [[s1 e1]|] eqn:Hs; [|done].
    destruct (exec ls s1) as [[s2 e2]|] eqn:He2; simplify_eq.
    rewrite app_assoc. eapply IH; [|done]. by eapply reach_step.
Qed.

Lemma exec_init_reach ls s tr :
  exec ls init = Some (s, tr) → reach tr s.
Proof. intros He. apply (exec_reach ls [] init s tr); [constructor|done]. Qed.

Lemma exec_snoc ls l : ∀ s0 s tr s' evs,
  exec ls s0 = Some (s, tr) →
  step l s = Some (s', evs) →
  exec (ls ++ [l]) s0 = Some (s', tr ++ evs).
Proof.
  induction ls as [|k ls IH]; intros s0 s tr s' evs He Hs; simpl in *.
  - simplify_eq. rewrite Hs. by rewrite app_nil_r.
  - destruct (step k s0) as [[s1 e1]|]; [|done].
    destruct (exec ls s1) as [[s2 e2]|] eqn:He2; simplify_eq.
    rewrite (IH _ _ _ _ _ He2 Hs). by rewrite app_assoc.
Qed.

Lemma reach_exec tr s :
  reach tr s → ∃ ls, exec ls init = Some (s, tr).
Proof.
  induction 1 as [|tr s l s' evs _ [ls IH] Hs]; [by exists []|].
  exists (ls ++ [l]). by eapply exec_snoc.
Qed.

Lemma flow_init : flow [] init.
Proof. constructor; simpl; try done. Qed.

Lemma flow_step tr s l s' evs :
  wf s → flow tr s → step l s = Some (s', evs) → flow (tr ++ evs) s'.
Proof.
  intros Hwf Hfl H. split_state s; split_wf Hwf.
  destruct Hfl as [Hfsnk Hffan Hfsrc]; simpl in *. step_inv H.
  all: constructor; rewrite ?sent_app, ?received_app; simpl in *.
  all: change (sent (In:=In) (Out:=Out) []) with (@nil Out);
       change (received (In:=In) (Out:=Out) []) with (@nil In);
       rewrite ?app_nil_r; try done.
  all: try (solve_flow_fan Hffan).
  all: try (by rewrite <-(assoc_L (++))).
  all: try (by eapply prefix_app_l).
  all: try (destruct sk; simplify_eq/=; rewrite ?app_nil_r in *; by simplify_list_eq).
  all: try (rewrite ?app_nil_r in *; by simplify_list_eq).
  all: try (by destruct sr).
Qed.

Lemma flow_reach tr s : reach tr s → flow tr s.
Proof.
  induction 1; [apply flow_init|].
  eapply flow_step; [eapply wf_reach| |]; eassumption.
Qed.

Lemma spawned_le c : loop_bounds workerCount c → spawned workerCount c ≤ Z.max 0 workerCount.
Proof. destruct c; simpl; lia. Qed.

Lemma wf_length s : wf s → Z.of_nat (length (workers s)) ≤ Z.max 0 workerCount.
Proof. intros Hwf. split_wf Hwf. rewrite Hspawned. by apply spawned_le. Qed.

Lemma lookup_single (ws : list (worker_pc In Out)) i w :
  Z.of_nat (length ws) ≤ 1 → ws !! i = Some w → ws = [w] ∧ i = 0%nat.
Proof.
  destruct ws as [|v [|? ?]]; simpl; intros ? Hi; [done| |lia].
  destruct i; by simplify_eq/=.
Qed.

Lemma ordered_init : ordered [] init.
Proof. by constructor. Qed.

Lemma ordered_step tr s l s' evs :
  workerCount ≤ 1 → wf s → context.done (ctx s') = false →
  ordered tr s → step l s = Some (s', evs) → ordered (tr ++ evs) s'.
Proof.
  intros Hn Hwf Hd Hord H.
  pose proof (wf_length _ Hwf) as Hlen.
  pose proof (wf_length _ (wf_step _ _ _ _ Hwf H)) as Hlen'.
  split_state s; split_wf Hwf; destruct Hord as [Hofan Hosrc]; simpl in *. step_inv H.
  all: try (by rewrite done_Stop in Hd).
  all: repeat match goal with
       | H : _ !! _ = Some _ |- _ => apply lookup_single in H as [-> ->]; [|simpl in *; lia]
       end.
  all: constructor; rewrite ?sent_app, ?received_app; simpl in *.
  all: change (sent (In:=In) (Out:=Out) []) with (@nil Out);
       change (received (In:=In) (Out:=Out) []) with (@nil In);
       rewrite ?app_nil_r; try done; try congruence.
  all: rewrite ?held_wake_closed, ?held_app, ?transformed_app, ?transformed_singleton in *;
       simpl in *; rewrite ?app_nil_r in *; try done; try congruence.
  all: try match goal with
       | H1 : fn ?x = (?r, ?e), H2 : is_nil ?e = true |- _ =>
           rewrite (result_Some fn x r e H1 H2) in *
       | H1 : fn ?x = (?r, ?e), H2 : is_nil ?e = false |- _ =>
           rewrite (result_None fn x r e H1 H2) in *
       end; simpl in *; rewrite ?app_nil_r in *; try done; try congruence.
  all: try (by rewrite <-(assoc_L (++))).
  all: try (by destruct sr).
Qed.

Lemma done_mono s l s' evs :
  step l s = Some (s', evs) → context.done (ctx s) = true → context.done (ctx s') = true.
Proof. intros H Hd. split_state s; simpl in *. step_inv H; by rewrite ?done_Stop. Qed.

Lemma ordered_reach tr s :
  workerCount ≤ 1 → reach tr s → context.done (ctx s) = false → ordered tr s.
Proof.
  intros Hn. induction 1 as [|tr s l s' evs Hr IH Hs]; intros Hd; [apply ordered_init|].
  eapply ordered_step; eauto; [by eapply wf_reach|].
  apply IH. destruct (context.done (ctx s)) eqn:Hds; [|done].
  by rewrite (done_mono _ _ _ _ Hs Hds) in Hd.
Qed.

Lemma quiet_init : quiet init.
Proof. constructor; simpl; intros; done. Qed.

Lemma quiet_step s l s' evs : wf s → quiet s → step l s = Some (s', evs) → quiet s'.
Proof.
  intros Hwf Hq H. split_state s; split_wf Hwf; destruct Hq as [Hqw Hqs]; simpl in *. step_inv H.
  all: wf_facts; pc_facts.
  all: constructor; simpl in *; rewrite ?done_Stop; try done.
  all: finish.
Qed.

Lemma quiet_reach tr s : reach tr s → quiet s.
Proof.
  induction 1; [apply quiet_init|].
  eapply quiet_step; [eapply wf_reach| |]; eassumption.
Qed.

Lemma existsb_lookup (P : worker_pc In Out → bool) ws :
  existsb P ws = true → ∃ i w, ws !! i = Some w ∧ P w = true.
Proof.
  intros (w & Hin & HP)%existsb_exists.
  apply list_elem_of_In, list_elem_of_lookup in Hin as [i Hi]. eauto.
Qed.

Lemma countw_live_blocked (ws : list (worker_pc In Out)) :
  existsb (λ w, negb (blocked w)) ws = false → countw live ws = countw is_parked ws.
Proof.
  induction ws as [|w ws IH]; simpl; [done|].
  intros [Hw Hws]%orb_false_iff. rewrite (IH Hws). by destruct w.
Qed.

Lemma countw_live_returned (ws : list (worker_pc In Out)) :
  Z.of_nat (length ws) ≤ countw live ws + countw returned ws.
Proof. induction ws as [|w ws IH]; simpl; [lia|]. destruct w; simpl; lia. Qed.

Lemma countw_parked_active (ws : list (worker_pc In Out)) :
  countw is_parked ws ≤ countw active ws.
Proof. apply countw_le. by intros []. Qed.

Lemma countw_active_live (ws : list (worker_pc In Out)) :
  countw active ws ≤ countw live ws.
Proof. apply countw_le. by intros []. Qed.

Lemma progress tr s :
  1 ≤ workerCount → reach tr s → context.done (ctx s) = false → main s ≠ MExit →
  ∃ l, is_stop l = false ∧ is_Some (step l s).
Proof.
  intros Hn Hr Hd Hm.
  pose proof (wf_reach _ _ Hr) as Hwf.
  pose proof (quiet_reach _ _ Hr) as Hq.
  split_state s; split_wf Hwf; destruct Hq as [Hqw Hqs]; simpl in *.
  unfold_step; simpl; rewrite Hpanic.
  destruct m; try done; try (by exists LMain; unfold driver; simpl; eauto).
  destruct (wg pp =? 0) eqn:Hwz;
    [exists LMain; unfold driver, Wait; simpl; rewrite Hwz; eauto|].
  (* the Source *)
  destruct sr as [|prog|x rest| |]; simpl in *; try done.
  { destruct (existsb is_park_recv ws) eqn:He.
    - apply existsb_lookup in He as (j & w & Hj & Hw). exists (LSrc j).
      split; [done|]. unfold Source, parked_recv_at, stop, set_worker; simpl. rewrite Hj, Hw.
      subst closed1. repeat case_match; simplify_eq/=; eauto.
    - exists (LSrc 0). split; [done|]. unfold Source, stop, set_worker; simpl. rewrite He.
      subst closed1. repeat case_match; simplify_eq/=; eauto. }
  2:{ exists (LSrc 0). split; [done|]. unfold Source; simpl. eauto. }
  all: destruct su as [|i|i| | | |]; simpl in *; try done;
    try (by exists LSup; split; [done|]; unfold FanOut; simpl; repeat case_match; eauto).
  all: try (destruct (fw =? 0) eqn:Hfw;
    [by exists LSup; split; [done|]; unfold FanOut; simpl; rewrite Hfw; eauto|]).
  (* the Sink *)
  all: destruct sk as [| | |r| |]; simpl in *; try done;
    try (by exists (LSink TakeComm 0); split; [done|]; unfold Sink; simpl; eauto).
  all: try (destruct (existsb is_park_send ws) eqn:He;
    [ apply existsb_lookup in He as (j & [] & Hj & Hw); try done;
      exists (LSink TakeComm j); split; [done|];
      unfold Sink, parked_send_at; simpl; rewrite Hj; eauto
    | exists (LSink TakeComm 0); split; [done|];
      unfold Sink; simpl; rewrite He;
      destruct (parked_send_at 0 ws); [eauto|];
      repeat case_match; simplify_eq/=; eauto ]; fail).
  (* the workers *)
  all: destruct (existsb (λ w, negb (blocked w)) ws) eqn:Hb;
    [ apply existsb_lookup in Hb as (i & w & Hi & Hw);
      exists (LWorker i TakeComm); split; [done|];
      unfold FanOut_worker, stop, Done, wg_add, set_worker; simpl; rewrite Hi, Hd;
      destruct w; try done; repeat case_match; simplify_eq/=; eauto
    | exfalso; apply countw_live_blocked in Hb;
      pose proof (countw_live_returned ws);
      pose proof (countw_parked_active ws);
      pose proof (countw_active_live ws);
      pose proof (countw_parked ws);
      pose proof (countw_nonneg is_park_recv ws);
      pose proof (countw_nonneg is_park_send ws);
      pose proof (countw_nonneg returned ws) ].
  all: specialize (Hqw Hd); specialize (Hqs Hd).
  all: destruct (decide (0 < countw returned ws));
       intuition (simplify_eq/=; try congruence; try lia).
Qed.

Lemma measure_step s l s' evs :
  wf s → step l s = Some (s', evs) →
  (context.done (ctx s) = true ∧ s' = s ∧ evs = []) ∨ measure s' < measure s.
Proof.
  intros Hwf H. pose proof (wf_panic _ _ (wf_step _ _ _ _ Hwf H)) as Hp.
  split_state s; split_wf Hwf; simpl in *. step_inv H.
  all: try (by left).
  all: right; unfold_measure; simpl in *; rewrite ?done_Stop;
       repeat match goal with
       | H : @context.done _ = _ |- _ => rewrite H
       end.
  all: repeat first
       [ rewrite workers_weight_app
       | erewrite workers_weight_insert by eassumption
       | erewrite workers_weight_insert
           by (rewrite list_lookup_fmap;
               match goal with H : _ !! _ = Some _ |- _ => rewrite H end;
               reflexivity) ]; simpl.
  all: repeat match goal with
       | |- context [workers_weight (wake_cancel <$> ?ws)] =>
           lazymatch goal with
           | _ : workers_weight (wake_cancel <$> ws) ≤ _ |- _ => fail
           | _ => pose proof (workers_weight_wake_cancel ws)
           end
       | |- context [workers_weight (wake_closed <$> ?ws)] =>
           lazymatch goal with
           | _ : workers_weight (wake_closed <$> ws) ≤ _ |- _ => fail
           | _ => pose proof (workers_weight_wake_closed ws)
           end
       | |- context [snk_weight (wake_cancel_sink ?c)] =>
           lazymatch goal with
           | _ : snk_weight (wake_cancel_sink c) ≤ _ |- _ => fail
           | _ => pose proof (snk_weight_wake_cancel c)
           end
       | |- context [snk_weight (wake_closed_sink ?c)] =>
           lazymatch goal with
           | _ : snk_weight (wake_closed_sink c) ≤ _ |- _ => fail
           | _ => pose proof (snk_weight_wake_closed c)
           end
       | |- context [prog_weight ?p] =>
           lazymatch goal with
           | _ : 0 ≤ prog_weight p |- _ => fail
           | _ => pose proof (prog_weight_nonneg p)
           end
       end.
  all: try lia.
  all: repeat match goal with
       | x : src_pc _ |- _ => destruct x
       | x : sup_pc |- _ => destruct x
       | x : sink_pc _ |- _ => destruct x
       end; simpl in *; try done; lia.
Qed.

Lemma measure_nonneg s : wf s → 0 ≤ measure s.
Proof.
  intros Hwf. split_wf Hwf. unfold_measure.
  pose proof (workers_weight_nonneg (workers s)).
  pose proof (prog_weight_nonneg gen).
  destruct (main s), (src s) as [|p|? p| |], (sup s), (snk s), (context.done (ctx s)); simpl in *;
    try pose proof (prog_weight_nonneg p); lia.
Qed.

Lemma done_exec_mono ls : ∀ s s' tr,
  exec ls s = Some (s', tr) →
  context.done (ctx s) = true → context.done (ctx s') = true.
Proof.
  induction ls as [|l ls IH]; intros s s' tr He Hd; simpl in He; [by simplify_eq|].
  destruct (step l s) as [[s1 e1]|] eqn:Hs; [|done].
  destruct (exec ls s1) as [[s2 e2]|] eqn:He2; simplify_eq.
  eapply IH; [done|]. by eapply done_mono.
Qed.

(** A run that ends with the context not cancelled has made no [Stop],
    and each of its transitions has lowered the measure. *)
Lemma exec_bound ls : ∀ s s' tr,
  wf s → exec ls s = Some (s', tr) →
  context.done (ctx s') = false →
  Z.of_nat (length ls) + measure s' ≤ measure s.
Proof.
  induction ls as [|l ls IH]; intros s s' tr Hwf He Hd; simpl in He.
  - simplify_eq/=. lia.
  - destruct (step l s) as [[s1 e1]|] eqn:Hs; [|done].
    destruct (exec ls s1) as [[s2 e2]|] eqn:He2; simplify_eq.
    pose proof (wf_step _ _ _ _ Hwf Hs) as Hwf1.
    specialize (IH _ _ _ Hwf1 He2 Hd).
    destruct (measure_step _ _ _ _ Hwf Hs) as [(Hds & -> & ->)|Hlt];
      [|rewrite length_cons; lia].
    by rewrite (done_exec_mono _ _ _ _ He2 Hds) in Hd.
Qed.

Lemma closes_step tr s l s' evs :
  wf s → closes tr s → step l s = Some (s', evs) → closes (tr ++ evs) s'.
Proof.
  intros Hwf [Hc1 Hc2] H. unfold closes. rewrite !count_events_app, Hc1, Hc2. clear Hc1 Hc2.
  split_state s; split_wf Hwf; simpl in *. step_inv H.
  all: simpl; repeat case_match; simplify_eq/=; try done; try lia.
  all: repeat match goal with
       | x : src_pc _ |- _ => destruct x
       | x : sup_pc |- _ => destruct x
       end; simplify_eq/=; try done.
Qed.

Lemma closes_reach tr s : reach tr s → closes tr s.
Proof.
  induction 1; [by split|].
  eapply closes_step; [eapply wf_reach| |]; eassumption.
Qed.

Lemma no_worker_step s l s' evs :
  workers s = [] → step l s = Some (s', evs) →
  received evs = [] ∧ sent evs = [].
Proof.
  intros Hw H. split_state s; simpl in *; subst. step_inv H; done.
Qed.

Lemma no_worker_reach tr s :
  workerCount ≤ 0 → reach tr s → received tr = [] ∧ sent tr = [].
Proof.
  intros Hn. induction 1 as [|tr s l s' evs Hr [IH1 IH2] Hs]; [done|].
  pose proof (wf_length _ (wf_reach _ _ Hr)) as Hlen.
  assert (workers s = []) as Hw by (destruct (workers s); simpl in *; [done|lia]).
  destruct (no_worker_step _ _ _ _ Hw Hs) as [H1 H2].
  by rewrite received_app, sent_app, IH1, IH2, H1, H2.
Qed.

Lemma transformed_ok xs :
  (∀ x, x ∈ xs → (fn x).2 = nil) → transformed xs = (λ x, (fn x).1) <$> xs.
Proof.
  induction xs as [|x xs IH]; intros Hok; [done|].
  unfold_transformed. csimpl. rewrite IH by (intros; apply Hok; by right).
  unfold result. specialize (Hok x (list_elem_of_here _ _)).
  destruct (fn x) as [r e]; simpl in *. by subst.
Qed.

Lemma held_not_live (ws : list (worker_pc In Out)) :
  countw live ws = 0 → ws ≫= held fn = [].
Proof.
  induction ws as [|w ws IH]; [done|]. simpl. pose proof (countw_nonneg live ws).
  destruct w; simpl; try lia. intros. csimpl. apply IH. lia.
Qed.

Lemma exit_all_done s :
  wf s → main s = MExit →
  src s = SrcExit ∧ sup s = SupExit ∧ snk s = SnkExit ∧ countw live (workers s) = 0.
Proof.
  intros Hwf Hm. split_wf Hwf. rewrite Hm in *. simpl in *. specialize (Hexit eq_refl).
  pose proof (countw_nonneg live (workers s)).
  destruct (src s), (sup s), (snk s); simpl in *; try done; try lia.
  repeat split; lia.
Qed.

(** C5. With [workerCount = 1] and a transform that fails on none of the
    generator's items, in every run in which the context is not
    cancelled: the values sent on FanOut's output are, in order, an
    initial part of the transforms of the generator's items; when [Wait]
    has returned they are all of them, and the Sink was given exactly
    them in that order; until then some goroutine can always move; and
    the run is no longer than the measure of the initial state, so every
    such run can be continued to the point where [Wait] returns. *)
Theorem single_worker_keeps_order ls s tr :
  workerCount = 1 →
  (∀ x, x ∈ sends gen → (fn x).2 = nil) →
  exec ls init = Some (s, tr) →
  context.done (ctx s) = false →
  sent tr `prefix_of` ((λ x, (fn x).1) <$> sends gen) ∧
  (main s = MExit →
   sent tr = (λ x, (fn x).1) <$> sends gen ∧
   consumed s = (λ x, (fn x).1) <$> sends gen) ∧
  (main s ≠ MExit → ∃ l, is_stop l = false ∧ is_Some (step l s)) ∧
  Z.of_nat (length ls) ≤ measure init.
Proof.
  intros Hn Hok He Hd.
  pose proof (exec_init_reach _ _ _ He) as Hr.
  pose proof (wf_reach _ _ Hr) as Hwf.
  destruct (ordered_reach tr s) as [Hfan Hsrc]; [lia|done|done|].
  destruct (flow_reach _ _ Hr) as [Hsnk _ _].
  rewrite <-(transformed_ok _ Hok), <-Hsrc, transformed_app, <-Hfan.
  repeat split.
  - rewrite <-(assoc_L (++)). by eexists.
  - destruct (exit_all_done _ Hwf H) as (Hs1 & Hs2 & Hs3 & Hw).
    rewrite Hs1, (held_not_live _ Hw). simpl.
    unfold_transformed. csimpl. by rewrite !app_nil_r.
  - destruct (exit_all_done _ Hwf H) as (Hs1 & Hs2 & Hs3 & Hw).
    rewrite Hs1, (held_not_live _ Hw), <-Hsnk, Hs3. simpl.
    unfold_transformed. csimpl. by rewrite !app_nil_r.
  - intros Hm. eapply progress; eauto. lia.
  - pose proof (exec_bound _ _ _ _ wf_init He Hd) as Hb.
    pose proof (measure_nonneg _ Hwf). lia.
Qed.

(** C6. For every generator, transform and [workerCount] (so for every
    [workerCount > 1]), in every run, cancelled or not: what the Sink has
    been given, and what was sent on FanOut's output, is contained as a
    multiset in the transforms of the generator's items. Items may be
    missing or in another order; none is duplicated or invented. *)
Theorem sink_sees_submultiset ls s tr :
  exec ls init = Some (s, tr) →
  consumed s ⊆+ transformed (sends gen) ∧ sent tr ⊆+ transformed (sends gen).
Proof.
  intros He. pose proof (exec_init_reach _ _ _ He) as Hr.
  destruct (flow_reach _ _ Hr) as [Hsnk Hfan Hsrc].
  assert (sent tr ⊆+ transformed (sends gen)) as Hs.
  { etrans; [apply submseteq_inserts_r; reflexivity|]. etrans; [exact Hfan|].
    destruct Hsrc as [k ->]. rewrite <-(assoc_L (++)), transformed_app.
    by apply submseteq_inserts_r. }
  split; [|done]. etrans; [|exact Hs]. rewrite <-Hsnk. by apply submseteq_inserts_r.
Qed.

(** *** Cancellation seen from the workers *)

Lemma cancelled_no_send s l s' evs :
  wf s → step l s = Some (s', evs) → context.done (ctx s) = true → sent evs = [].
Proof.
  intros Hwf H Hd. split_state s; split_wf Hwf; simpl in *.
  destruct (Hcancel Hd) as [Hnp Hns]. step_inv H; try done.
  all: wf_facts; simplify_eq/=; try done; lia.
Qed.

Lemma take_done_enabled s i w :
  wf s → context.done (ctx s) = true → workers s !! i = Some w →
  w = WSelRecv ∨ (∃ r, w = WSelSend r) →
  step (LWorker i TakeDone) s = Some (set_worker i WDefer s, []).
Proof.
  intros Hwf Hd Hi Hw. unfold_step. rewrite (wf_panic _ _ Hwf).
  unfold FanOut_worker. rewrite Hi, Hd. by destruct Hw as [->|[r ->]].
Qed.

Lemma cancelled_send_returns s i c r s' evs :
  wf s → context.done (ctx s) = true → workers s !! i = Some (WSelSend r) →
  step (LWorker i c) s = Some (s', evs) → workers s' !! i = Some WDefer.
Proof.
  intros Hwf Hd Hi H. pose proof (lookup_lt_Some _ _ _ Hi) as Hlt.
  split_state s; split_wf Hwf; simpl in *.
  destruct (Hcancel Hd) as [Hnp Hns]. step_inv H.
  all: wf_facts; simplify_eq/=; try done.
  all: try (by apply list_lookup_insert_eq).
  all: destruct su; simpl in *; try done; lia.
Qed.

Lemma cancel_wakes s l s' evs :
  step l s = Some (s', evs) →
  context.done (ctx s) = false → context.done (ctx s') = true →
  received evs = [] ∧ sent evs = [] ∧
  ∀ i w, workers s !! i = Some w → is_parked w = true →
         workers s' !! i = Some WDefer.
Proof.
  intros H Hd Hd'. split_state s; simpl in *. step_inv H; try congruence.
  all: repeat split; try done; intros k wk Hk Hwk.
  all: try (rewrite list_lookup_fmap, Hk; by destruct wk).
  destruct (decide (i = k)) as [->|Hne]; [by simplify_eq/=|].
  rewrite list_lookup_insert_ne, list_lookup_fmap, Hk by done. by destruct wk.
Qed.

Lemma returned_stays s l s' evs i w :
  step l s = Some (s', evs) → workers s !! i = Some w → returned w = true →
  (∃ w', workers s' !! i = Some w' ∧ returned w' = true) ∧
  (∀ x, ERecv i x ∉ evs) ∧ (∀ r, ESend i r ∉ evs).
Proof.
  intros H Hi Hw. pose proof (lookup_lt_Some _ _ _ Hi) as Hlt.
  split_state s; simpl in *. step_inv H.
  all: repeat split.
  all: try (intros ? Hin; apply list_elem_of_singleton in Hin; by simplify_eq/=).
  all: try (intros ? Hin; by apply elem_of_nil in Hin).
  all: try (by eauto).
  all: try (rewrite list_lookup_fmap, Hi; simpl; eexists; split; [done|by destruct w]).
  all: try (rewrite lookup_app_l by done; by eauto).
  all: try match goal with
       | Hj : ?ws !! ?j = Some ?v |- context [<[?j:=_]> _ !! ?k] =>
           destruct (decide (j = k)) as [->|Hne];
           [ rewrite ?list_lookup_insert_eq by (by rewrite ?length_fmap);
             simplify_eq/=; by eauto
           | rewrite list_lookup_insert_ne, ?list_lookup_fmap, ?Hi by done;
             simpl; eexists; split; [done|by destruct w] ]
       end.
Qed.

(** C7. In every reachable state and for every transition from it:
    once the context is cancelled no send of a worker is completed, and
    no worker and no Sink is parked in a [select]; a worker that arrives
    at either [select] with the context cancelled can take the
    [<-ctx.Done()] case, which returns, and a worker that arrives at the
    send has no other transition, so its result is dropped; the
    transition that cancels the context completes no receive and no send
    and makes every worker that was parked in a [select] return; and a
    worker that has returned stays so and takes part in no later receive
    or send. *)
Theorem worker_races_cancellation ls s tr l s' evs :
  exec ls init = Some (s, tr) → step l s = Some (s', evs) →
  (context.done (ctx s) = true →
     sent evs = [] ∧ countw is_parked (workers s) = 0 ∧ is_snk_park (snk s) = false) ∧
  (context.done (ctx s) = true →
     ∀ i w, workers s !! i = Some w → w = WSelRecv ∨ (∃ r, w = WSelSend r) →
            step (LWorker i TakeDone) s = Some (set_worker i WDefer s, [])) ∧
  (context.done (ctx s) = true →
     ∀ i r c, workers s !! i = Some (WSelSend r) → l = LWorker i c →
              workers s' !! i = Some WDefer) ∧
  (context.done (ctx s) = false → context.done (ctx s') = true →
     received evs = [] ∧ sent evs = [] ∧
     ∀ i w, workers s !! i = Some w → is_parked w = true →
            workers s' !! i = Some WDefer) ∧
  (∀ i w, workers s !! i = Some w → returned w = true →
     (∃ w', workers s' !! i = Some w' ∧ returned w' = true) ∧
     (∀ x, ERecv i x ∉ evs) ∧ (∀ r, ESend i r ∉ evs)).
Proof.
  intros He Hs. pose proof (wf_reach _ _ (exec_init_reach _ _ _ He)) as Hwf.
  repeat split.
  - by eapply cancelled_no_send.
  - by apply (wf_cancel _ _ Hwf).
  - by apply (wf_cancel _ _ Hwf).
  - intros. by eapply take_done_enabled.
  - intros Hd i r c Hi ->. by eapply cancelled_send_returns.
  - by eapply cancel_wakes.
  - by eapply cancel_wakes.
  - by eapply cancel_wakes.
  - by eapply returned_stays.
  - by eapply returned_stays.
  - by eapply returned_stays.
Qed.

(** A transform error stops the pipeline with that error as the cause
    when nothing stopped it before. *)
Lemma transform_error_stops s i e c s' evs :
  workers s !! i = Some (WStop e) → is_nil e = false →
  context.done (ctx s) = false → step (LWorker i c) s = Some (s', evs) →
  context.Cause (ctx s') = e ∧ context.done (ctx s') = true ∧
  evs = [ECancel e] ∧ workers s' !! i = Some WDefer.
Proof.
  intros Hi He Hd H. pose proof (lookup_lt_Some _ _ _ Hi) as Hlt.
  split_state s; simpl in *. step_inv H.
  assert (context.Cause (Stop e cx) = e) as Hc.
  { destruct cx as [[] ?]; try done. by destruct e. }
  rewrite Hc, done_Stop. repeat split.
  apply list_lookup_insert_eq. by rewrite length_fmap.
Qed.

(** *** Closing *)

(** Once a channel is closed nothing more passes through it. *)
Lemma closed_no_traffic s l s' evs :
  wf s → step l s = Some (s', evs) →
  (src_closed s = true → received evs = []) ∧
  (fan_closed s = true → sent evs = []).
Proof.
  intros Hwf H. split_state s; split_wf Hwf; simpl in *. step_inv H.
  all: split; try done.
  all: wf_facts; destruct su; simpl in *; try done; lia.
Qed.

(** C4. In every run, and so in every run that completes without
    cancellation: no goroutine panics (no channel is closed twice, nothing
    is sent on a closed channel); [close] has been called on each output
    channel once if the channel is closed and never otherwise; Source's
    channel is closed only when its generator has returned, whatever the
    generator did; FanOut's channel is closed only when all [workerCount]
    workers are registered and every one of them has returned and run its
    [wg.Done()]; when [Wait] has returned both channels are closed; and
    no transition passes a value through a channel that is closed. *)
Theorem channels_closed_once ls s tr :
  exec ls init = Some (s, tr) →
  panicked s = false ∧
  count_events is_close_src tr = (if src_closed s then 1 else 0)%nat ∧
  count_events is_close_fan tr = (if fan_closed s then 1 else 0)%nat ∧
  (src_closed s = true → src_returned (src s) = true) ∧
  (fan_closed s = true →
     Z.of_nat (length (workers s)) = Z.max 0 workerCount ∧
     Forall (λ w, active w = false) (workers s)) ∧
  (main s = MExit → src_closed s = true ∧ fan_closed s = true) ∧
  (∀ l s' evs, step l s = Some (s', evs) →
     (src_closed s = true → received evs = []) ∧
     (fan_closed s = true → sent evs = [])).
Proof.
  intros He. pose proof (exec_init_reach _ _ _ He) as Hr.
  pose proof (wf_reach _ _ Hr) as Hwf. destruct (closes_reach _ _ Hr) as [Hc1 Hc2].
  split; [apply Hwf|]. split; [done|]. split; [done|]. split; [|split; [|split]].
  - by rewrite (wf_src_closed _ _ Hwf).
  - rewrite (wf_fan_closed _ _ Hwf). intros Hc.
    pose proof (wf_spawned _ _ Hwf) as Hsp. pose proof (wf_waited _ _ Hwf) as Hw.
    rewrite <-countw_zero. destruct (sup s); simpl in *; try done; auto.
  - intros Hm. destruct (exit_all_done _ Hwf Hm) as (Hs1 & Hs2 & _).
    by rewrite (wf_src_closed _ _ Hwf), (wf_fan_closed _ _ Hwf), Hs1, Hs2.
  - intros l s' evs Hs. by eapply closed_no_traffic.
Qed.

(** *** No workers *)

Lemma sup_never_waits s :
  wf s → workers s = [] → sup_started (sup s) = true → sup s ≠ SupExit →
  is_Some (step LSup s).
Proof.
  intros Hwf Hws Hst Hex. unfold_step. rewrite (wf_panic _ _ Hwf).
  pose proof (wf_fan_wg _ _ Hwf) as Hfw. pose proof (wf_loop _ _ Hwf) as Hl.
  pose proof (wf_spawned _ _ Hwf) as Hsp. rewrite Hws in *.
  unfold FanOut. destruct (sup s); simpl in *; try done; repeat case_match; eauto; lia.
Qed.

Lemma parked_source_stays s l s' evs :
  wf s → workers s = [] → is_src_park (src s) = true →
  step l s = Some (s', evs) → src s' = src s.
Proof.
  intros Hwf Hws Hp H. split_state s; split_wf Hwf; simpl in *; subst.
  step_inv H; try done. by destruct sr.
Qed.

(** C9. [FanOut] does not look at [workerCount]: when it is zero or
    negative no worker is ever registered and the local WaitGroup stays
    at zero, so the supervising task is never made to wait and goes
    straight to [close(out)]: its first three transitions, which nothing
    can hold up, are the loop test, [wg.Wait()] and [close(out)], after
    which its output is closed and a Sink that was parked on it has been
    resumed and returns. Nothing is received from the input channel,
    nothing is sent on the output channel, the Sink is given nothing:
    once the output is closed the Sink is not parked and holds no item,
    and when it arrives at its [select] and takes the receive it finds
    the channel closed and returns; unless the pipeline is stopped it
    returns only in that way. And a generator that is parked in a send
    stays parked: the input channel is never drained. *)
Theorem fanout_without_workers ls s tr :
  workerCount ≤ 0 → exec ls init = Some (s, tr) →
  workers s = [] ∧ fan_wg s = 0 ∧
  received tr = [] ∧ sent tr = [] ∧ consumed s = [] ∧
  (sup_started (sup s) = true → sup s ≠ SupExit → is_Some (step LSup s)) ∧
  (snk_returned (snk s) = true → context.done (ctx s) = false →
   fan_closed s = true) ∧
  (is_src_park (src s) = true →
   ∀ l s' evs, step l s = Some (s', evs) → src s' = src s) ∧
  (∀ i, sup s = SupLoop i →
   ∃ s', exec [LSup; LSup; LSup] s = Some (s', [ECloseFan]) ∧
         fan_closed s' = true ∧ sup s' = SupPDone ∧
         snk s' = (match snk s with SnkPark => SnkPDone | c => c end) ∧
         workers s' = [] ∧ src s' = src s ∧ consumed s' = []) ∧
  (fan_closed s = true →
   is_snk_park (snk s) = false ∧ held_snk (snk s) = [] ∧
   (snk s = SnkSel →
    ∀ j, step (LSink TakeComm j) s = Some (set_snk SnkPDone s, []))).
Proof.
  intros Hn He. pose proof (exec_init_reach _ _ _ He) as Hr.
  pose proof (wf_reach _ _ Hr) as Hwf.
  destruct (no_worker_reach _ _ Hn Hr) as [Hrecv Hsent].
  pose proof (wf_length _ Hwf) as Hlen.
  assert (workers s = []) as Hws by (destruct (workers s); simpl in *; [done|lia]).
  assert (fan_wg s = 0) as Hfw0.
  { pose proof (wf_fan_wg _ _ Hwf) as Hfw. pose proof (wf_loop _ _ Hwf) as Hl.
    rewrite Hws in Hfw. destruct (sup s); simpl in *; lia. }
  assert (consumed s = [] ∧ held_snk (snk s) = []) as [Hcons Hheld].
  { pose proof (flow_sink _ _ _ _ (flow_reach _ _ Hr)) as Hfs. rewrite Hsent in Hfs.
    by apply app_eq_nil in Hfs. }
  split; [done|]. split; [done|].
  split; [done|]. split; [done|]. split; [done|].
  split; [by apply sup_never_waits|]. split; [|split; [|split]].
  - intros Hsr Hd. by apply (quiet_sink _ (quiet_reach _ _ Hr)).
  - intros Hp l s' evs Hs. by eapply parked_source_stays.
  - intros i Hi.
    pose proof (wf_loop _ _ Hwf) as Hl. pose proof (wf_fan_closed _ _ Hwf) as Hfc.
    pose proof (wf_panic _ _ Hwf) as Hpan.
    rewrite Hi in Hl, Hfc. simpl in Hl, Hfc.
    assert ((i <? workerCount) = false) as Hlt by (apply Z.ltb_ge; lia).
    split_state s. simpl in *. subst.
    unfold_step. unfold FanOut. simpl. rewrite Hlt. simpl.
    eexists. split; [reflexivity|]. simpl. repeat split. by destruct sk.
  - intros Hc. split; [by apply (wf_closed_snk _ _ Hwf)|]. split; [done|].
    intros Hsel j. unfold_step. rewrite (wf_panic _ _ Hwf).
    unfold Sink, parked_send_at. by rewrite Hsel, Hws, Hc.
Qed.

(** *** Stop *)

Lemma ctx_frozen s l s' evs :
  step l s = Some (s', evs) → context.done (ctx s) = true → ctx s' = ctx s.
Proof. intros H Hd. split_state s; simpl in *. step_inv H; done. Qed.

(** C2, as amended. On a context that is not yet cancelled, [Stop causeA]
    followed by [Stop causeB] leaves the cause equal to [causeA] when
    [causeA] is not nil, and equal to [context.Canceled] when it is nil;
    the second call changes nothing; and in a run of the pipeline no
    transition of any goroutine changes a context that is cancelled. *)
Theorem stop_first_cause_wins (c : context.cancelCtx) (causeA causeB : error) :
  context.done c = false →
  context.Cause (Stop causeB (Stop causeA c)) =
    (if is_nil causeA then Canceled else causeA) ∧
  Stop causeB (Stop causeA c) = Stop causeA c ∧
  context.done (Stop causeA c) = true ∧
  ∀ l s s' evs,
    ctx s = Stop causeA c → step l s = Some (s', evs) → ctx s' = Stop causeA c.
Proof.
  intros Hd. destruct c as [e cs]. destruct e; try done.
  repeat split; try (by destruct causeA).
  intros l s s' evs Hc Hs. rewrite <-Hc. eapply ctx_frozen; [done|].
  rewrite Hc. by destruct causeA.
Qed.

(** A state that nothing but a [Stop] without effect can leave is never
    left. *)
Lemma stuck_exec s ls : ∀ s' tr,
  stuck fn workerCount gen s → exec ls s = Some (s', tr) → s' = s.
Proof.
  induction ls as [|l ls IH]; intros s' tr Hst He; simpl in He; [by simplify_eq|].
  destruct (step l s) as [[s1 e1]|] eqn:Hs; [|done].
  destruct (exec ls s1) as [[s2 e2]|] eqn:He2; simplify_eq.
  destruct (Hst _ _ _ Hs) as [-> _]. by eapply IH.
Qed.

(** ** Further properties of the runs *)

(** *** The two WaitGroups, and what [Wait] waits for *)

(** X1. In every run the counter of the pipeline's WaitGroup is the
    number of tasks that were registered with [Add] and have not run
    their deferred [Done]: the Source's task, FanOut's supervising task,
    the Sink's task and the workers; the counter of FanOut's own
    WaitGroup is the number of workers that have not run their deferred
    [wg.Done()], plus one between the supervising task's [wg.Add(1)] and
    its [p.Add]. Neither ever goes below zero, so no [Done] panics, and
    the pipeline's counter never exceeds three plus the number of
    workers. *)
Theorem waitgroups_count_live_tasks ls s tr :
  exec ls init = Some (s, tr) →
  wg (pl s) =
    src_live (src s) + sup_live (sup s) + countw live (workers s) +
    snk_live (snk s) ∧
  fan_wg s = countw active (workers s) + sup_ahead (sup s) ∧
  0 ≤ fan_wg s ≤ wg (pl s) ∧
  wg (pl s) ≤ 3 + Z.max 0 workerCount ∧
  panicked s = false.
Proof.
  intros He. pose proof (wf_reach _ _ (exec_init_reach _ _ _ He)) as Hwf.
  pose proof (wf_length _ Hwf) as Hlen.
  split_wf Hwf.
  pose proof (countw_active_live (workers s)).
  pose proof (countw_nonneg active (workers s)).
  pose proof (countw_length live (workers s)).
  pose proof (src_live_nonneg (src s)). pose proof (snk_live_nonneg (snk s)).
  repeat split; try done.
  all: destruct (sup s); simpl in *; lia.
Qed.

Lemma live_zero_exit (ws : list (worker_pc In Out)) :
  countw live ws = 0 → Forall (λ w, w = WExit) ws.
Proof.
  intros Hz%countw_zero. eapply Forall_impl; [exact Hz|]. by intros [].
Qed.

(** X2. [Wait] returns only when every task registered with [Add] has
    finished, the workers that FanOut's supervising task registered
    included: the Source's task, the supervising task and the Sink's task
    are gone, all [workerCount] workers were started and every one of
    them is gone; and from then on no goroutine of the program moves. *)
Theorem wait_returns_after_all_tasks ls s tr :
  exec ls init = Some (s, tr) → main s = MExit →
  src s = SrcExit ∧ sup s = SupExit ∧ snk s = SnkExit ∧
  Forall (λ w, w = WExit) (workers s) ∧
  Z.of_nat (length (workers s)) = Z.max 0 workerCount ∧
  wg (pl s) = 0 ∧
  halted fn workerCount gen s.
Proof.
  intros He Hm. pose proof (wf_reach _ _ (exec_init_reach _ _ _ He)) as Hwf.
  destruct (exit_all_done _ Hwf Hm) as (Hs1 & Hs2 & Hs3 & Hw).
  apply live_zero_exit in Hw.
  repeat split; try done.
  - pose proof (wf_spawned _ _ Hwf) as Hsp. by rewrite Hs2 in Hsp.
  - apply (wf_exit _ _ Hwf). by rewrite Hm.
  - intros l Hl. unfold_step. rewrite (wf_panic _ _ Hwf).
    destruct l as [|j| |i c|c j|e]; try done.
    + unfold driver. by rewrite Hm.
    + unfold Source. by rewrite Hs1.
    + unfold FanOut. by rewrite Hs2.
    + unfold FanOut_worker. destruct (workers s !! i) as [w|] eqn:Hi; [|done].
      by rewrite (proj1 (Forall_lookup _ _) Hw i w Hi).
    + unfold Sink. by rewrite Hs3.
Qed.

(** *** Where a run can come to a halt *)

Lemma progress_unparked tr s :
  reach tr s → is_src_park (src s) = false → main s ≠ MExit →
  ∃ l, is_stop l = false ∧ is_Some (step l s).
Proof.
  intros Hr Hsp Hm.
  pose proof (wf_reach _ _ Hr) as Hwf.
  pose proof (quiet_reach _ _ Hr) as Hq.
  split_state s; split_wf Hwf; destruct Hq as [Hqw Hqs]; simpl in *.
  unfold_step; simpl; rewrite Hpanic.
  destruct m; try done; try (by exists LMain; unfold driver; simpl; eauto).
  destruct (wg pp =? 0) eqn:Hwz;
    [exists LMain; unfold driver, Wait; simpl; rewrite Hwz; eauto|].
  (* the Source *)
  destruct sr as [|prog|x rest| |]; simpl in *; try done.
  { destruct (existsb is_park_recv ws) eqn:He.
    - apply existsb_lookup in He as (j & w & Hj & Hw). exists (LSrc j).
      split; [done|]. unfold Source, parked_recv_at, stop, set_worker; simpl. rewrite Hj, Hw.
      subst closed1. repeat case_match; simplify_eq/=; eauto.
    - exists (LSrc 0). split; [done|]. unfold Source, stop, set_worker; simpl. rewrite He.
      subst closed1. repeat case_match; simplify_eq/=; eauto. }
  { exists (LSrc 0). split; [done|]. unfold Source; simpl. eauto. }
  (* the supervising task *)
  destruct su as [|i|i| | | |]; simpl in *; try done;
    try (by exists LSup; split; [done|]; unfold FanOut; simpl; repeat case_match; eauto).
  all: try (destruct (fw =? 0) eqn:Hfw;
    [by exists LSup; split; [done|]; unfold FanOut; simpl; rewrite Hfw; eauto|]).
  (* the Sink *)
  all: destruct (context.done cx) eqn:Hd.
  all: destruct sk as [| | |r| |]; simpl in *; try done;
    try (by exists (LSink TakeDone 0); split; [done|]; unfold Sink; simpl; rewrite ?Hd; eauto).
  all: try (destruct (existsb is_park_send ws) eqn:He;
    [ apply existsb_lookup in He as (j & [] & Hj & Hw); try done;
      exists (LSink TakeComm j); split; [done|];
      unfold Sink, parked_send_at; simpl; rewrite Hj; eauto
    | exists (LSink TakeComm 0); split; [done|];
      unfold Sink; simpl; rewrite He, Hd;
      destruct (parked_send_at 0 ws); [eauto|];
      repeat case_match; simplify_eq/=; eauto ]; fail).
  (* the workers *)
  all: destruct (existsb (λ w, negb (blocked w)) ws) eqn:Hb;
    [ apply existsb_lookup in Hb as (i & w & Hi & Hw);
      exists (LWorker i (if context.done cx then TakeDone else TakeComm));
      split; [done|];
      unfold FanOut_worker, stop, Done, wg_add, set_worker; simpl; rewrite Hi, Hd;
      destruct w; try done; repeat case_match; simplify_eq/=; eauto
    | exfalso; apply countw_live_blocked in Hb;
      pose proof (countw_live_returned ws);
      pose proof (countw_parked_active ws);
      pose proof (countw_active_live ws);
      pose proof (countw_parked ws);
      pose proof (countw_nonneg is_park_recv ws);
      pose proof (countw_nonneg is_park_send ws);
      pose proof (countw_nonneg returned ws) ].
  all: try specialize (Hqw eq_refl); try specialize (Hqs eq_refl);
       try specialize (Hcancel eq_refl).
  all: intuition (simplify_eq/=; try congruence; try lia).
Qed.

(** X3. The only place where a run can come to a halt before [Wait]
    returns is the generator's send. In every run, for every
    [workerCount], cancelled or not: as long as [Wait] has not returned
    and the Source's task is not parked in a send, some goroutine of the
    program can move; and with at least one worker and the context not
    cancelled some goroutine can move even then. *)
Theorem halts_only_in_generator_send ls s tr :
  exec ls init = Some (s, tr) → main s ≠ MExit →
  is_src_park (src s) = false ∨
    (1 ≤ workerCount ∧ context.done (ctx s) = false) →
  ∃ l, is_stop l = false ∧ is_Some (step l s).
Proof.
  intros He Hm [Hp|[Hn Hd]].
  - eapply progress_unparked; eauto using exec_init_reach.
  - eapply progress; eauto using exec_init_reach.
Qed.

(** X4. A pipeline whose generator sends nothing (a walk that meets no
    regular file, or fails at once) cannot come to a halt before [Wait]
    returns, for every [workerCount] and whether it is stopped or not. *)
Theorem empty_generator_never_halts ls s tr :
  sends gen = [] → exec ls init = Some (s, tr) → main s ≠ MExit →
  ∃ l, is_stop l = false ∧ is_Some (step l s).
Proof.
  intros Hg He Hm. pose proof (exec_init_reach _ _ _ He) as Hr.
  eapply progress_unparked; eauto.
  pose proof (flow_src _ _ _ _ (flow_reach _ _ Hr)) as [k Hk].
  rewrite Hg in Hk. destruct (src s); try done.
  symmetry in Hk. apply app_eq_nil in Hk as [Hk _]. by apply app_eq_nil in Hk as [_ ?].
Qed.

(** *** Without cancellation nothing is lost *)

Lemma lossless_init : lossless fn gen [] init.
Proof. by constructor. Qed.

Lemma lossless_step tr s l s' evs :
  wf s → context.done (ctx s') = false →
  lossless fn gen tr s → step l s = Some (s', evs) →
  lossless fn gen (tr ++ evs) s'.
Proof.
  intros Hwf Hd Hll H.
  split_state s; split_wf Hwf; destruct Hll as [Hlfan Hlsrc]; simpl in *. step_inv H.
  all: try (by rewrite done_Stop in Hd).
  all: try congruence.
  all: constructor; rewrite ?sent_app, ?received_app; simpl in *.
  all: change (sent (In:=In) (Out:=Out) []) with (@nil Out);
       change (received (In:=In) (Out:=Out) []) with (@nil In);
       rewrite ?app_nil_r; try done; try congruence.
  all: try (by rewrite <-(assoc_L (++))).
  all: try (by destruct sr).
  all: held_simpl Hlfan; try done.
  all: rewrite <-Hlfan; solve_Permutation.
Qed.

Lemma lossless_reach tr s :
  reach tr s → context.done (ctx s) = false → lossless fn gen tr s.
Proof.
  induction 1 as [|tr s l s' evs Hr IH Hs]; intros Hd; [apply lossless_init|].
  eapply lossless_step; eauto; [by eapply wf_reach|].
  apply IH. destruct (context.done (ctx s)) eqn:Hds; [|done].
  by rewrite (done_mono _ _ _ _ Hs Hds) in Hd.
Qed.

(** X5. For every [workerCount], generator and transform, in every run
    in which the context is not cancelled: what the workers have received
    and what the generator has still to send is exactly the generator's
    items, in order; what was sent on FanOut's output and what the
    workers have in hand is a rearrangement of the transforms of the
    received items; and when [Wait] has returned every item was received
    and the Sink was given a rearrangement of the transforms of all the
    items, nothing lost and nothing twice. *)
Theorem nothing_lost_without_cancellation ls s tr :
  exec ls init = Some (s, tr) → context.done (ctx s) = false →
  received tr ++ pending gen (src s) = sends gen ∧
  sent tr ++ (workers s ≫= held fn) ≡ₚ transformed (received tr) ∧
  (main s = MExit →
   received tr = sends gen ∧ sent tr = consumed s ∧
   consumed s ≡ₚ transformed (sends gen)).
Proof.
  intros He Hd. pose proof (exec_init_reach _ _ _ He) as Hr.
  pose proof (wf_reach _ _ Hr) as Hwf.
  destruct (lossless_reach _ _ Hr Hd) as [Hfan Hsrc].
  destruct (flow_reach _ _ Hr) as [Hsnk _ _].
  split; [done|]. split; [done|]. intros Hm.
  destruct (exit_all_done _ Hwf Hm) as (Hs1 & Hs2 & Hs3 & Hw).
  rewrite Hs1 in Hsrc. rewrite Hs3 in Hsnk. simpl in *.
  rewrite app_nil_r in Hsrc, Hsnk.
  rewrite (held_not_live _ Hw), app_nil_r in Hfan.
  by rewrite <-Hsrc, Hsnk.
Qed.

(** *** Every run is finite *)

Lemma program_step_lowers s l s' evs :
  wf s → is_stop l = false → step l s = Some (s', evs) → measure s' < measure s.
Proof.
  intros Hwf Hl H. pose proof (wf_panic _ _ (wf_step _ _ _ _ Hwf H)) as Hp.
  destruct l; try done.
  all: split_state s; split_wf Hwf; simpl in *; step_inv H.
  all: unfold_measure; simpl in *; rewrite ?done_Stop;
       repeat match goal with
       | H : @context.done _ = _ |- _ => rewrite H
       end.
  all: repeat first
       [ rewrite workers_weight_app
       | erewrite workers_weight_insert by eassumption
       | erewrite workers_weight_insert
           by (rewrite list_lookup_fmap;
               match goal with H : _ !! _ = Some _ |- _ => rewrite H end;
               reflexivity) ]; simpl.
  all: repeat match goal with
       | |- context [workers_weight (wake_cancel <$> ?ws)] =>
           lazymatch goal with
           | _ : workers_weight (wake_cancel <$> ws) ≤ _ |- _ => fail
           | _ => pose proof (workers_weight_wake_cancel ws)
           end
       | |- context [workers_weight (wake_closed <$> ?ws)] =>
           lazymatch goal with
           | _ : workers_weight (wake_closed <$> ws) ≤ _ |- _ => fail
           | _ => pose proof (workers_weight_wake_closed ws)
           end
       | |- context [snk_weight (wake_cancel_sink ?c)] =>
           lazymatch goal with
           | _ : snk_weight (wake_cancel_sink c) ≤ _ |- _ => fail
           | _ => pose proof (snk_weight_wake_cancel c)
           end
       | |- context [snk_weight (wake_closed_sink ?c)] =>
           lazymatch goal with
           | _ : snk_weight (wake_closed_sink c) ≤ _ |- _ => fail
           | _ => pose proof (snk_weight_wake_closed c)
           end
       | |- context [prog_weight ?p] =>
           lazymatch goal with
           | _ : 0 ≤ prog_weight p |- _ => fail
           | _ => pose proof (prog_weight_nonneg p)
           end
       end.
  all: try lia.
  all: repeat match goal with
       | x : src_pc _ |- _ => destruct x
       | x : sup_pc |- _ => destruct x
       | x : sink_pc _ |- _ => destruct x
       end; simpl in *; try done; lia.
Qed.

Lemma moves_bound ls : ∀ s s' tr,
  wf s → exec ls s = Some (s', tr) →
  Z.of_nat (moves ls) + measure s' ≤ measure s.
Proof.
  induction ls as [|l ls IH]; intros s s' tr Hwf He; simpl in He.
  - simplify_eq/=. lia.
  - destruct (step l s) as [[s1 e1]|] eqn:Hs; [|done].
    destruct (exec ls s1) as [[s2 e2]|] eqn:He2; simplify_eq.
    pose proof (wf_step _ _ _ _ Hwf Hs) as Hwf1.
    specialize (IH _ _ _ Hwf1 He2). simpl.
    destruct (is_stop l) eqn:Hl.
    + destruct (measure_step _ _ _ _ Hwf Hs) as [(_ & -> & _)|Hlt]; lia.
    + pose proof (program_step_lowers _ _ _ _ Hwf Hl Hs). lia.
Qed.

Lemma prog_weight_length (prog : list (gen_op In)) :
  prog_weight prog ≤ 10 * Z.of_nat (length prog).
Proof. induction prog as [|[] prog IH]; simpl length; simpl prog_weight; simpl op_weight; lia. Qed.

(** X6. Every run is finite, whatever the schedule: the goroutines of
    the program make at most [10 * len(gen) + 6 * max(0, workerCount) + 14]
    transitions in all ([gen] being the generator's sequence of actions),
    however many times [Stop] is called from outside in between. No
    goroutine spins: a run ends with [Wait] returned or at a halt. *)
Theorem runs_are_bounded ls s tr :
  exec ls init = Some (s, tr) →
  Z.of_nat (moves ls) + measure s ≤ measure init ∧
  0 ≤ measure s ∧
  Z.of_nat (moves ls) ≤
    10 * Z.of_nat (length gen) + 6 * Z.max 0 workerCount + 14.
Proof.
  intros He. pose proof (wf_reach _ _ (exec_init_reach _ _ _ He)) as Hwf.
  pose proof (moves_bound _ _ _ _ wf_init He) as Hb.
  pose proof (measure_nonneg _ Hwf) as Hn.
  split; [done|]. split; [done|].
  pose proof (prog_weight_length gen).
  assert (measure init ≤ prog_weight gen + 6 * Z.max 0 workerCount + 14) as Hi.
  { unfold_measure. simpl. case_match; lia. }
  lia.
Qed.

(** *** The order of the items *)

(** X7. The Sink's [fn] is called with the values in the order in which
    the sends on FanOut's output were completed, each one once: in every
    run what the Sink has consumed, followed by the value it has received
    and not yet consumed, is exactly what was sent. The Sink is never
    more than one value behind. *)
Theorem sink_consumes_in_send_order ls s tr :
  exec ls init = Some (s, tr) →
  consumed s ++ held_snk (snk s) = sent tr ∧
  consumed s `prefix_of` sent tr ∧
  (length (sent tr) ≤ S (length (consumed s)))%nat.
Proof.
  intros He. pose proof (exec_init_reach _ _ _ He) as Hr.
  destruct (flow_reach _ _ Hr) as [Hsnk _ _].
  split; [done|]. rewrite <-Hsnk. split; [by eexists|].
  rewrite length_app. destruct (snk s); simpl; lia.
Qed.

(** X8. The workers receive the generator's items in the order in which
    the generator sends them, without a gap and without a repetition,
    cancelled or not: in every run the items received so far, followed by
    the items the generator has still to send, are an initial part of the
    generator's items. *)
Theorem workers_receive_in_generator_order ls s tr :
  exec ls init = Some (s, tr) →
  received tr ++ pending gen (src s) `prefix_of` sends gen ∧
  received tr `prefix_of` sends gen ∧
  (length (received tr) ≤ length (sends gen))%nat.
Proof.
  intros He. pose proof (exec_init_reach _ _ _ He) as Hr.
  destruct (flow_reach _ _ Hr) as [_ _ Hsrc].
  split; [done|].
  assert (received tr `prefix_of` sends gen) as Hp.
  { etrans; [|exact Hsrc]. by eexists. }
  split; [done|]. by apply prefix_length.
Qed.

(** *** A send of the generator that nobody is left to complete *)

Lemma not_returned_wake_cancel (ws : list (worker_pc In Out)) :
  countw (λ w, negb (returned w)) (wake_cancel <$> ws) ≤
  countw (λ w, negb (returned w)) ws.
Proof.
  rewrite (countw_fmap _ (λ w, negb (returned (wake_cancel w)))) by done.
  apply countw_le. by intros [].
Qed.

Lemma not_returned_wake_closed (ws : list (worker_pc In Out)) :
  countw (λ w, negb (returned w)) (wake_closed <$> ws) ≤
  countw (λ w, negb (returned w)) ws.
Proof.
  rewrite (countw_fmap _ (λ w, negb (returned (wake_closed w)))) by done.
  apply countw_le. by intros [].
Qed.

Lemma forallb_countw (P : worker_pc In Out → bool) ws :
  forallb P ws = true ↔ countw (λ w, negb (P w)) ws = 0.
Proof.
  induction ws as [|w ws IH]; simpl; [done|].
  pose proof (countw_nonneg (λ w, negb (P w)) ws).
  rewrite andb_true_iff, IH. destruct (P w); simpl; split; try lia; naive_solver lia.
Qed.

Lemma parked_forever_step s l s' evs :
  wf s → is_src_park (src s) = true →
  countw (λ w, negb (returned w)) (workers s) = 0 →
  Z.of_nat (length (workers s)) = Z.max 0 workerCount →
  step l s = Some (s', evs) →
  src s' = src s ∧
  countw (λ w, negb (returned w)) (workers s') = 0 ∧
  length (workers s') = length (workers s) ∧
  received evs = [].
Proof.
  intros Hwf Hp Hr Hlen H. split_state s; split_wf Hwf; simpl in *.
  pose proof (not_returned_wake_cancel ws).
  pose proof (not_returned_wake_closed ws).
  pose proof (countw_nonneg (λ w, negb (returned w)) (wake_cancel <$> ws)).
  pose proof (countw_nonneg (λ w, negb (returned w)) (wake_closed <$> ws)).
  step_inv H.
  all: try match goal with
       | Hi : ?l !! ?i = Some ?w |- _ =>
           pose proof (countw_lookup (λ v, negb (returned v)) l i w Hi eq_refl); lia
       end.
  all: repeat split; simpl; countw_simpl; try done; try lia.
  all: by destruct sr.
Qed.

Lemma parked_forever_exec ls : ∀ s s' tr,
  wf s → is_src_park (src s) = true →
  countw (λ w, negb (returned w)) (workers s) = 0 →
  Z.of_nat (length (workers s)) = Z.max 0 workerCount →
  exec ls s = Some (s', tr) →
  src s' = src s ∧ wf s' ∧ received tr = [].
Proof.
  induction ls as [|l ls IH]; intros s s' tr Hwf Hp Hr Hlen He; simpl in He;
    [by simplify_eq|].
  destruct (step l s) as [[s1 e1]|] eqn:Hs; [|done].
  destruct (exec ls s1) as [[s2 e2]|] eqn:He2; simplify_eq.
  destruct (parked_forever_step _ _ _ _ Hwf Hp Hr Hlen Hs) as (H1 & H2 & H3 & H4).
  destruct (IH s1 s' e2) as (H5 & H6 & H7);
    [by eapply wf_step|by rewrite H1|done|by rewrite H3|done|].
  rewrite received_app, H4, H7, H5, H1. done.
Qed.

(** X9. The send of the generator is not raced against cancellation, so
    a generator left alone in it stays there for ever. In every run: once
    the Source's task is parked in a send while all [workerCount] workers
    have been registered and every one of them has returned, whatever
    made them return, then in every continuation the Source's task stays
    parked in that send, nothing more is received, and [Wait] never
    returns. *)
Theorem source_parked_forever ls s tr ls' s' tr' :
  exec ls init = Some (s, tr) →
  is_src_park (src s) = true →
  forallb returned (workers s) = true →
  Z.of_nat (length (workers s)) = Z.max 0 workerCount →
  exec ls' s = Some (s', tr') →
  src s' = src s ∧ received tr' = [] ∧ main s' ≠ MExit ∧ 1 ≤ wg (pl s').
Proof.
  intros He Hp Hr%forallb_countw Hlen He'.
  pose proof (wf_reach _ _ (exec_init_reach _ _ _ He)) as Hwf.
  destruct (parked_forever_exec _ _ _ _ Hwf Hp Hr Hlen He') as (H1 & Hwf' & H2).
  split; [done|]. split; [done|].
  rewrite <-H1 in Hp. split_wf Hwf'.
  pose proof (countw_nonneg live (workers s')).
  pose proof (sup_live_nonneg (sup s')). pose proof (snk_live_nonneg (snk s')).
  destruct (src s'); try done. simpl in *.
  split; [|lia]. intros Hm. rewrite Hm in Hexit. simpl in Hexit. specialize (Hexit eq_refl). lia.
Qed.

(** *** The cancellations of a run *)

Lemma cancels_app (tr1 tr2 : list (event In Out)) :
  cancels (tr1 ++ tr2) = cancels tr1 ++ cancels tr2.
Proof. apply omap_app. Qed.

Lemma cancels_step s l s' evs :
  step l s = Some (s', evs) →
  cancels evs =
    if context.done (ctx s) then []
    else if context.done (ctx s') then [context.Cause (ctx s')] else [].
Proof.
  intros H. split_state s; simpl in *. step_inv H.
  all: rewrite ?done_Stop; simpl;
       repeat match goal with
       | H : @context.done _ = _ |- _ => rewrite H
       end; try done.
  all: try (by destruct (context.done cx)).
  all: match goal with
       | H : @context.done (Stop _ _) = false |- _ => by rewrite done_Stop in H
       end.
Qed.

Lemma done_init : context.done (ctx init) = context.done parent.
Proof. apply done_WithCancelCause. Qed.

Lemma reach_done_init tr s :
  reach tr s → context.done parent = true → ctx s = ctx init.
Proof.
  intros Hr Hd. induction Hr as [|tr s l s' evs Hr IH Hs]; [done|].
  rewrite <-IH. eapply ctx_frozen; [done|]. by rewrite IH, done_init.
Qed.

Lemma cancels_reach tr s :
  reach tr s →
  cancels tr =
    if context.done (ctx s) && negb (context.done parent)
    then [context.Cause (ctx s)] else [].
Proof.
  induction 1 as [|tr s l s' evs Hr IH Hs].
  - simpl. rewrite done_WithCancelCause. by destruct (context.done parent).
  - rewrite cancels_app, IH, (cancels_step _ _ _ _ Hs).
    destruct (context.done (ctx s)) eqn:Hd.
    + rewrite (ctx_frozen _ _ _ _ Hs Hd), Hd, app_nil_r. done.
    + destruct (context.done parent) eqn:Hdp.
      { rewrite (reach_done_init _ _ Hr Hdp), done_init in Hd. congruence. }
      simpl. by rewrite andb_true_r.
Qed.

(** X10. In every run the context is cancelled at most once: if the
    parent was not cancelled, the cancellations seen in the run are
    exactly one, with the cause that [context.Cause] gives at the end,
    when the context is cancelled, and none otherwise; every other call
    of [Stop], from outside, from the generator or from a worker, has no
    effect. *)
Theorem context_cancelled_once ls s tr :
  exec ls init = Some (s, tr) →
  cancels tr =
    if context.done (ctx s) && negb (context.done parent)
    then [context.Cause (ctx s)] else [].
Proof. intros He. apply cancels_reach. by eapply exec_init_reach. Qed.

Lemma cancelled_exec_no_send ls : ∀ s s' tr,
  wf s → context.done (ctx s) = true → exec ls s = Some (s', tr) → sent tr = [].
Proof.
  induction ls as [|l ls IH]; intros s s' tr Hwf Hd He; simpl in He; [by simplify_eq|].
  destruct (step l s) as [[s1 e1]|] eqn:Hs; [|done].
  destruct (exec ls s1) as [[s2 e2]|] eqn:He2; simplify_eq.
  rewrite sent_app, (cancelled_no_send _ _ _ _ Hwf Hs Hd). simpl.
  eapply IH; [by eapply wf_step|by eapply done_mono|done].
Qed.

(** X11. A pipeline made by [New] from a parent context that is already
    cancelled starts cancelled, with the parent's error and cause, and
    stays exactly so: no [Stop] changes the cause, no cancellation is
    seen in any run, no send on FanOut's output is ever completed and the
    Sink's [fn] is never called. *)
Theorem cancelled_parent_runs_dry ls s tr :
  context.done parent = true → exec ls init = Some (s, tr) →
  ctx s = (New parent [WithLogger lg]).2 ∧
  context.done (ctx s) = true ∧
  context.Err (ctx s) = context.err parent ∧
  context.Cause (ctx s) =
    (if is_nil (context.cause parent) then context.err parent
     else context.cause parent) ∧
  cancels tr = [] ∧ sent tr = [] ∧ consumed s = [].
Proof.
  intros Hd He. pose proof (exec_init_reach _ _ _ He) as Hr.
  pose proof (reach_done_init _ _ Hr Hd) as Hc.
  assert (sent tr = []) as Hs.
  { eapply cancelled_exec_no_send; [apply wf_init| |exact He]. by rewrite done_init. }
  split; [done|]. rewrite Hc. split; [by rewrite done_init|].
  split; [by destruct parent as [[] ?]|]. split; [by destruct parent as [[] ?]|].
  split.
  { rewrite (cancels_reach _ _ Hr), Hd. by rewrite andb_false_r. }
  split; [done|].
  pose proof (flow_sink _ _ _ _ (flow_reach _ _ Hr)) as Hfs. rewrite Hs in Hfs.
  by apply app_eq_nil in Hfs as [? _].
Qed.

(** *** What still happens once the context is cancelled *)

Lemma consumed_step s l s' evs :
  step l s = Some (s', evs) → consumed s `prefix_of` consumed s'.
Proof.
  intros H. split_state s; simpl in *. step_inv H; try done; by eexists.
Qed.

Lemma consumed_exec ls : ∀ s s' tr,
  exec ls s = Some (s', tr) → consumed s `prefix_of` consumed s'.
Proof.
  induction ls as [|l ls IH]; intros s s' tr He; simpl in He; [by simplify_eq|].
  destruct (step l s) as [[s1 e1]|] eqn:Hs; [|done].
  destruct (exec ls s1) as [[s2 e2]|] eqn:He2; simplify_eq.
  etrans; [by eapply consumed_step|by eapply IH].
Qed.

(** X12. Once the context is cancelled the Sink's [fn] is called at
    most once more, with the value the Sink had already received: in
    every continuation of a run that has reached a cancelled context no
    send on FanOut's output is completed, and what the Sink has consumed
    grows by nothing but the value it had in hand. *)
Theorem sink_after_cancellation ls s tr ls' s' tr' :
  exec ls init = Some (s, tr) → context.done (ctx s) = true →
  exec ls' s = Some (s', tr') →
  sent tr' = [] ∧
  consumed s `prefix_of` consumed s' ∧
  consumed s' `prefix_of` consumed s ++ held_snk (snk s).
Proof.
  intros He Hd He'. pose proof (exec_init_reach _ _ _ He) as Hr.
  pose proof (exec_reach _ _ _ _ _ Hr He') as Hr'.
  assert (sent tr' = []) as Hs.
  { apply (cancelled_exec_no_send ls' s s' tr'); [by eapply wf_reach|done|done]. }
  split; [done|]. split; [by eapply consumed_exec|].
  pose proof (flow_sink _ _ _ _ (flow_reach _ _ Hr)) as H1.
  pose proof (flow_sink _ _ _ _ (flow_reach _ _ Hr')) as H2.
  rewrite sent_app, Hs, app_nil_r, <-H1 in H2. rewrite <-H2. by eexists.
Qed.

Lemma budget_step s l s' evs :
  wf s → context.done (ctx s) = true → step l s = Some (s', evs) →
  Z.of_nat (length (received evs)) + recv_budget workerCount s' ≤
  recv_budget workerCount s.
Proof.
  intros Hwf Hd H. unfold recv_budget.
  split_state s; split_wf Hwf; simpl in *.
  destruct (Hcancel Hd) as [Hnp Hns]. step_inv H.
  all: wf_facts; simpl; countw_simpl; try done; try lia.
Qed.

Lemma budget_exec ls : ∀ s s' tr,
  wf s → context.done (ctx s) = true → exec ls s = Some (s', tr) →
  Z.of_nat (length (received tr)) + recv_budget workerCount s' ≤
  recv_budget workerCount s.
Proof.
  induction ls as [|l ls IH]; intros s s' tr Hwf Hd He; simpl in He.
  - simplify_eq/=. lia.
  - destruct (step l s) as [[s1 e1]|] eqn:Hs; [|done].
    destruct (exec ls s1) as [[s2 e2]|] eqn:He2; simplify_eq.
    pose proof (budget_step _ _ _ _ Hwf Hd Hs).
    pose proof (IH _ _ _ (wf_step _ _ _ _ Hwf Hs) (done_mono _ _ _ _ Hs Hd) He2).
    rewrite received_app, length_app. lia.
Qed.

Lemma budget_bounds s :
  wf s → 0 ≤ recv_budget workerCount s ≤ Z.max 0 workerCount.
Proof.
  intros Hwf. pose proof (wf_length _ Hwf). unfold recv_budget.
  pose proof (countw_nonneg is_sel_recv (workers s)).
  pose proof (countw_length is_sel_recv (workers s)). lia.
Qed.

(** X13. Cancellation does not stop the reading at once, but nearly: a
    worker whose first [select] finds both cases ready may still take an
    item, and then returns at its second [select]. In every continuation
    of a run that has reached a cancelled context, the number of items
    received is at most the number of workers that were arriving at their
    first [select] or were not registered yet, so at most [workerCount]
    in all. *)
Theorem receives_after_cancellation ls s tr ls' s' tr' :
  exec ls init = Some (s, tr) → context.done (ctx s) = true →
  exec ls' s = Some (s', tr') →
  Z.of_nat (length (received tr')) ≤ recv_budget workerCount s ∧
  recv_budget workerCount s ≤ Z.max 0 workerCount.
Proof.
  intros He Hd He'. pose proof (wf_reach _ _ (exec_init_reach _ _ _ He)) as Hwf.
  pose proof (budget_exec _ _ _ _ Hwf Hd He') as Hb.
  assert (wf s') as Hwf'.
  { eapply wf_reach, exec_reach; [by eapply exec_init_reach|done]. }
  pose proof (budget_bounds _ Hwf). pose proof (budget_bounds _ Hwf'). lia.
Qed.

(** *** Where the cause comes from *)

Lemma traced_mono tr evs (w : worker_pc In Out) :
  traced fn tr w → traced fn (tr ++ evs) w.
Proof.
  destruct w; simpl; try done; rewrite received_app.
  - intros ?. apply elem_of_app. by left.
  - intros [? (x & ? & ?)]. split; [done|]. exists x. split; [|done].
    apply elem_of_app. by left.
Qed.

Lemma traced_wake_cancel tr (w : worker_pc In Out) :
  traced fn tr w → traced fn tr (wake_cancel w).
Proof. by destruct w. Qed.

Lemma traced_wake_closed tr (w : worker_pc In Out) :
  traced fn tr w → traced fn tr (wake_closed w).
Proof. by destruct w. Qed.

Lemma traced_step tr s l s' evs :
  Forall (traced fn tr) (workers s) → step l s = Some (s', evs) →
  Forall (traced fn (tr ++ evs)) (workers s').
Proof.
  intros Hf H.
  assert (Forall (traced fn (tr ++ evs)) (workers s)) as Hf'.
  { eapply Forall_impl; [exact Hf|]. intros w. apply traced_mono. }
  split_state s; simpl in *. step_inv H.
  all: repeat match goal with
       | |- Forall _ (<[_:=_]> _) => apply Forall_insert
       | |- Forall _ (_ ++ _) => apply Forall_app_2
       | |- Forall _ [_] => apply Forall_singleton
       | |- Forall _ (wake_cancel <$> _) =>
           apply Forall_fmap; eapply Forall_impl; [exact Hf'|];
           intros ?; apply traced_wake_cancel
       | |- Forall _ (wake_closed <$> _) =>
           apply Forall_fmap; eapply Forall_impl; [exact Hf'|];
           intros ?; apply traced_wake_closed
       end; try done.
  all: simpl; rewrite ?received_app; simpl.
  all: try (apply elem_of_app; right; by apply list_elem_of_singleton).
  all: match goal with
       | Hi : _ !! _ = Some (WItem ?x), Hx : fn ?x = (_, ?e) |- _ =>
           split; [done|]; exists x; split;
           [rewrite app_nil_r; exact (Forall_lookup_1 _ _ _ _ Hf Hi)
           |by rewrite Hx]
       end.
Qed.

Lemma traced_reach tr s : reach tr s → Forall (traced fn tr) (workers s).
Proof.
  induction 1 as [|tr s l s' evs Hr IH Hs]; [by constructor|].
  by eapply traced_step.
Qed.

Lemma remaining_step s l s' evs :
  remaining gen (src s) `suffix_of` gen → step l s = Some (s', evs) →
  remaining gen (src s') `suffix_of` gen.
Proof.
  intros Hsuf H. split_state s; simpl in *. step_inv H; try done.
  all: try apply suffix_nil.
  all: try (by eapply suffix_cons_l).
  all: by destruct sr.
Qed.

Lemma remaining_reach tr s : reach tr s → remaining gen (src s) `suffix_of` gen.
Proof.
  induction 1 as [|tr s l s' evs Hr IH Hs]; [done|].
  by eapply remaining_step.
Qed.

Lemma exec_app_inv ls l : ∀ s0 s' tr',
  exec (ls ++ [l]) s0 = Some (s', tr') →
  ∃ s tr evs,
    exec ls s0 = Some (s, tr) ∧ step l s = Some (s', evs) ∧ tr' = tr ++ evs.
Proof.
  induction ls as [|k ls IH]; intros s0 s' tr' He; simpl in He.
  - destruct (step l s0) as [[s1 e1]|] eqn:Hs; [|done]. simplify_eq.
    exists s0, [], e1. by rewrite app_nil_r.
  - destruct (step k s0) as [[s1 e1]|] eqn:Hs; [|done].
    destruct (exec (ls ++ [l]) s1) as [[s2 e2]|] eqn:He2; simplify_eq.
    destruct (IH _ _ _ He2) as (s & tr & evs & H1 & H2 & ->).
    exists s, (e1 ++ tr), evs. simpl. rewrite Hs, H1. by rewrite app_assoc.
Qed.

Lemma Cause_Stop e c : context.done c = false → context.Cause (Stop e c) = recorded e.
Proof. by destruct c as [[] ?]. Qed.

Lemma stop_origin_mono ls l tr evs c :
  stop_origin fn gen ls tr c → stop_origin fn gen (ls ++ [l]) (tr ++ evs) c.
Proof.
  intros [(e & ? & ?)|[?|(? & x & ? & ?)]]; [left|right; by left|right; right].
  - exists e. split; [|done]. apply elem_of_app. by left.
  - split; [done|]. exists x. rewrite received_app. split; [|done].
    apply elem_of_app. by left.
Qed.

Lemma first_stop ls tr s l s' evs :
  Forall (traced fn tr) (workers s) → remaining gen (src s) `suffix_of` gen →
  context.done (ctx s) = false → context.done (ctx s') = true →
  step l s = Some (s', evs) →
  stop_origin fn gen (ls ++ [l]) (tr ++ evs) (context.Cause (ctx s')).
Proof.
  intros Hf Hsuf Hd Hd' H. split_state s; simpl in *. step_inv H; try congruence.
  all: rewrite Cause_Stop by done.
  all: first
    [ (* the generator *)
      right; left; eexists; split; [|done];
      eapply elem_of_suffix; [|exact Hsuf]; by left
    | (* a worker *)
      match goal with
      | Hi : _ !! _ = Some (WStop ?e) |- _ =>
          destruct (Forall_lookup_1 _ _ _ _ Hf Hi) as [Hne (x & Hx & Hfx)];
          right; right; unfold recorded; rewrite Hne; split; [done|];
          exists x; rewrite received_app; split; [|done];
          apply elem_of_app; by left
      end
    | (* from outside *)
      left; eexists; split; [|done];
      apply elem_of_app; right; by apply list_elem_of_singleton ].
Qed.

Lemma origin_exec ls : ∀ s tr,
  exec ls init = Some (s, tr) →
  context.done parent = false → context.done (ctx s) = true →
  stop_origin fn gen ls tr (context.Cause (ctx s)).
Proof.
  induction ls as [|l ls IH] using rev_ind; intros s tr He Hdp Hd.
  - simpl in He. simplify_eq. rewrite done_init in Hd. congruence.
  - apply exec_app_inv in He as (s0 & tr0 & evs & He0 & Hs & ->).
    pose proof (exec_init_reach _ _ _ He0) as Hr.
    destruct (context.done (ctx s0)) eqn:Hd0.
    + rewrite (ctx_frozen _ _ _ _ Hs Hd0). apply stop_origin_mono. by apply IH.
    + eapply first_stop; eauto using traced_reach, remaining_reach.
Qed.

(** X14. The cause of a cancellation is never made up. In every run of
    a pipeline whose parent was not cancelled, when the context is
    cancelled its cause is the one recorded by a [Stop] that was really
    made: a [Stop(e)] from outside the stages, the generator's
    [p.Stop(e)], or the [p.Stop(err)] of a worker with an error, not nil,
    that the transform returned on an item of the generator which that
    worker had received. (A nil [e] is recorded as [context.Canceled].) *)
Theorem cause_comes_from_a_stop ls s tr :
  exec ls init = Some (s, tr) →
  context.done parent = false → context.done (ctx s) = true →
  (∃ e, LStop e ∈ ls ∧ context.Cause (ctx s) = recorded e) ∨
  (∃ e, GStop e ∈ gen ∧ context.Cause (ctx s) = recorded e) ∨
  (is_nil (context.Cause (ctx s)) = false ∧
   ∃ x, x ∈ sends gen ∧ x ∈ received tr ∧ (fn x).2 = context.Cause (ctx s)).
Proof.
  intros He Hdp Hd.
  destruct (origin_exec _ _ _ He Hdp Hd) as [?|[?|(Hne & x & Hx & Hfx)]];
    [by left|by right; left|right; right].
  split; [done|]. exists x. split; [|done].
  pose proof (flow_src _ _ _ _ (flow_reach _ _ (exec_init_reach _ _ _ He))) as Hp.
  eapply elem_of_prefix; [|exact Hp]. apply elem_of_app. by left.
Qed.

Lemma existsb_elem_of {A} (P : A → bool) (l : list A) x :
  existsb P l = false → x ∈ l → P x = false.
Proof.
  induction l as [|y l IH]; simpl; intros Hl Hx; [by apply elem_of_nil in Hx|].
  apply orb_false_iff in Hl as [? ?]. apply elem_of_cons in Hx as [->|?]; auto.
Qed.

Lemma never_cancelled ls s tr :
  context.done parent = false →
  existsb is_stop ls = false → existsb is_gstop gen = false →
  (∀ x, x ∈ sends gen → (fn x).2 = nil) →
  exec ls init = Some (s, tr) → context.done (ctx s) = false.
Proof.
  intros Hdp Hls Hgen Hok He.
  destruct (context.done (ctx s)) eqn:Hd; [exfalso|done].
  destruct (origin_exec _ _ _ He Hdp Hd) as [(e & Hin & _)|[(e & Hin & _)|(Hne & x & Hx & Hfx)]].
  - by pose proof (existsb_elem_of _ _ _ Hls Hin).
  - by pose proof (existsb_elem_of _ _ _ Hgen Hin).
  - pose proof (flow_src _ _ _ _ (flow_reach _ _ (exec_init_reach _ _ _ He))) as Hp.
    rewrite Hok in Hfx.
    + by rewrite <-Hfx in Hne.
    + eapply elem_of_prefix; [|exact Hp]. apply elem_of_app. by left.
Qed.

(** X15. The pipeline is correct when nothing goes wrong, for any
    number of workers. With at least one worker, a parent that is not
    cancelled, a generator that never calls [Stop], a transform that
    fails on none of the generator's items and no [Stop] from outside:
    in every run the context is never cancelled; as long as [Wait] has
    not returned some goroutine can move; the run is no longer than the
    measure of the initial state, so it can always be continued to the
    point where [Wait] returns; and there every item has been received
    and the Sink has been given the transform of every item exactly
    once, in some order. *)
Theorem completes_when_nothing_fails ls s tr :
  1 ≤ workerCount → context.done parent = false →
  existsb is_stop ls = false → existsb is_gstop gen = false →
  (∀ x, x ∈ sends gen → (fn x).2 = nil) →
  exec ls init = Some (s, tr) →
  context.done (ctx s) = false ∧
  (main s ≠ MExit → ∃ l, is_stop l = false ∧ is_Some (step l s)) ∧
  Z.of_nat (length ls) ≤ measure init ∧
  (main s = MExit →
   received tr = sends gen ∧
   consumed s ≡ₚ (λ x, (fn x).1) <$> sends gen).
Proof.
  intros Hn Hdp Hls Hgen Hok He.
  pose proof (never_cancelled _ _ _ Hdp Hls Hgen Hok He) as Hd.
  pose proof (exec_init_reach _ _ _ He) as Hr.
  pose proof (wf_reach _ _ Hr) as Hwf.
  split; [done|]. split; [|split].
  - intros Hm. by eapply progress.
  - pose proof (exec_bound _ _ _ _ wf_init He Hd) as Hb.
    pose proof (measure_nonneg _ Hwf). lia.
  - intros Hm.
    destruct (lossless_reach _ _ Hr Hd) as [Hfan Hsrc].
    destruct (flow_reach _ _ Hr) as [Hsnk _ _].
    destruct (exit_all_done _ Hwf Hm) as (Hs1 & Hs2 & Hs3 & Hw).
    rewrite Hs1 in Hsrc. rewrite Hs3 in Hsnk. simpl in *.
    rewrite app_nil_r in Hsrc, Hsnk.
    rewrite (held_not_live _ Hw), app_nil_r in Hfan.
    split; [done|]. by rewrite <-(transformed_ok _ Hok), <-Hsrc, Hsnk.
Qed.

(** *** A generator that ends by stopping the pipeline *)

Lemma ends_with_stop_step e s l s' evs :
  wf s → context.done (ctx s') = false →
  last (remaining gen (src s)) = Some (GStop e) →
  step l s = Some (s', evs) →
  last (remaining gen (src s')) = Some (GStop e).
Proof.
  intros Hwf Hd Hl H. split_state s; split_wf Hwf; simpl in *. step_inv H; try done.
  all: try (by rewrite done_Stop in Hd).
  all: try congruence.
  all: try match goal with
       | H : last (_ :: ?r) = _ |- _ => destruct r; by simplify_eq/=
       end.
  all: by destruct sr.
Qed.

Lemma ends_with_stop_reach e tr s :
  last gen = Some (GStop e) → reach tr s → context.done (ctx s) = false →
  last (remaining gen (src s)) = Some (GStop e).
Proof.
  intros Hg. induction 1 as [|tr s l s' evs Hr IH Hs]; intros Hd; [done|].
  eapply ends_with_stop_step; eauto using wf_reach. apply IH.
  destruct (context.done (ctx s)) eqn:Hds; [|done].
  by rewrite (done_mono _ _ _ _ Hs Hds) in Hd.
Qed.

Lemma ends_with_stop_cancels e tr s :
  last gen = Some (GStop e) → reach tr s →
  src_returned (src s) = true ∨ src s = SrcRun [] → context.done (ctx s) = true.
Proof.
  intros Hg Hr Hs. destruct (context.done (ctx s)) eqn:Hd; [done|].
  pose proof (ends_with_stop_reach _ _ _ Hg Hr Hd) as Hl.
  destruct Hs as [Hs|Hs]; [destruct (src s)|rewrite Hs in Hl]; done.
Qed.

(** *** Closing follows the items *)

Lemma held_not_active (ws : list (worker_pc In Out)) :
  countw active ws = 0 → ws ≫= held fn = [].
Proof.
  induction ws as [|w ws IH]; [done|]. simpl. pose proof (countw_nonneg active ws).
  destruct w; simpl; try lia. all: intros; csimpl; apply IH; lia.
Qed.

Lemma countw_active_returned (ws : list (worker_pc In Out)) :
  Z.of_nat (length ws) ≤ countw active ws + countw returned ws.
Proof. induction ws as [|w ws IH]; simpl; [lia|]. destruct w; simpl; lia. Qed.

(** X16. Without cancellation the channels are closed from upstream to
    downstream, each when everything has passed through it. In every run
    in which the context is not cancelled, with at least one worker: a
    worker has returned only if Source's channel is closed; Source's
    channel is closed only when every item of the generator has been
    received; FanOut's channel is closed only when Source's is, and then
    the values sent on it are a rearrangement of the transforms of all
    the items; and the Sink has returned only if FanOut's channel is
    closed, and then it has consumed everything that was sent. *)
Theorem closing_follows_the_items ls s tr :
  1 ≤ workerCount → exec ls init = Some (s, tr) →
  context.done (ctx s) = false →
  (0 < countw returned (workers s) → src_closed s = true) ∧
  (src_closed s = true → received tr = sends gen) ∧
  (fan_closed s = true →
   src_closed s = true ∧ sent tr ≡ₚ transformed (sends gen)) ∧
  (snk_returned (snk s) = true → fan_closed s = true ∧ consumed s = sent tr).
Proof.
  intros Hn He Hd. pose proof (exec_init_reach _ _ _ He) as Hr.
  pose proof (wf_reach _ _ Hr) as Hwf.
  destruct (quiet_reach _ _ Hr) as [Hqw Hqs].
  destruct (lossless_reach _ _ Hr Hd) as [Hfan Hsrc].
  destruct (flow_reach _ _ Hr) as [Hsnk _ _].
  assert (src_closed s = true → received tr = sends gen) as Hall.
  { intros Hc. rewrite (wf_src_closed _ _ Hwf) in Hc.
    destruct (src s); try done; simpl in Hsrc; by rewrite app_nil_r in Hsrc. }
  split; [by apply Hqw|]. split; [done|]. split.
  - intros Hc. rewrite (wf_fan_closed _ _ Hwf) in Hc.
    assert (countw active (workers s) = 0) as Ha.
    { apply (wf_waited _ _ Hwf). by destruct (sup s). }
    assert (src_closed s = true) as Hsc.
    { apply Hqw; [done|]. pose proof (countw_active_returned (workers s)).
      pose proof (wf_spawned _ _ Hwf) as Hsp.
      destruct (sup s); simpl in *; try done; lia. }
    split; [done|].
    rewrite (held_not_active _ Ha), app_nil_r in Hfan. by rewrite Hfan, (Hall Hsc).
  - intros Hs. split; [by apply Hqs|].
    rewrite <-Hsnk. destruct (snk s); try done; by rewrite app_nil_r.
Qed.

End proofs.

(** ** The closed statements *)

Lemma parked_source_stuck (f : Z → Z * error) (cs : error) :
  stuck f 1 two_files (parked_source (stopped cs)).
Proof.
  intros l s' evs H. destruct l as [|j| |[|i] c|c j|e]; simpl in H; try done.
  unfold step, stop in H. simpl in H. by simplify_eq.
Qed.

(** C1 (the code does not do this). One worker, two files, no error: the
    generator has passed its test of [ctx.Err()] and is parked in
    [out <- 2] when the pipeline is stopped from outside; the worker, the
    supervising task and the Sink leave through [<-ctx.Done()]; the state
    reached has the Source's task parked in a send that no goroutine is
    left to complete, the WaitGroup at 1 and the driver in [p.Wait()],
    and no schedule leads out of it: [Wait] does not return. *)
Theorem wait_blocks_after_outside_stop :
  exec square 1 two_files stop_schedule (init context.Background None) =
    Some (parked_source (stopped Canceled),
          [ERecv 0 1; ECancel Canceled; ECloseFan]) ∧
  main (parked_source (stopped Canceled)) = MWait ∧
  wg (pl (parked_source (stopped Canceled))) = 1 ∧
  ∀ ls s tr,
    exec square 1 two_files ls (parked_source (stopped Canceled)) = Some (s, tr) →
    s = parked_source (stopped Canceled).
Proof.
  repeat split. intros ls s tr He.
  eapply stuck_exec; [apply parked_source_stuck|done].
Qed.

(** C3 (the code does not do this). One worker, two files, the transform
    fails on the first: the generator is parked in [out <- 2] when the
    worker calls [p.Stop(err)]. The cause is that error and nothing more
    is received from the Source, but the Source's task stays parked in
    its send and [Wait] does not return. *)
Theorem wait_blocks_after_transform_error :
  exec (fails_on 1) 1 two_files error_schedule (init context.Background None) =
    Some (parked_source (stopped (Errorf "open")),
          [ERecv 0 1; ECancel (Errorf "open"); ECloseFan]) ∧
  context.Cause (ctx (parked_source (stopped (Errorf "open")))) = Errorf "open" ∧
  main (parked_source (stopped (Errorf "open"))) = MWait ∧
  ∀ ls s tr,
    exec (fails_on 1) 1 two_files ls (parked_source (stopped (Errorf "open")))
      = Some (s, tr) →
    s = parked_source (stopped (Errorf "open")).
Proof.
  repeat split. intros ls s tr He.
  eapply stuck_exec; [apply parked_source_stuck|done].
Qed.

(** C2 as stated fails when the first cause is nil: the cause that can be
    retrieved is then [context.Canceled]. *)
Lemma stop_nil_cause_differs :
  ¬ (∀ causeA causeB : error,
       context.Cause
         (Stop causeB (Stop causeA (New context.Background []).2)) = causeA).
Proof. intros H. by specialize (H nil (Errorf "b")). Qed.

Lemma stop_first_cause_wins_witness :
  context.done (New context.Background []).2 = false ∧
  context.Cause
    (Stop (Errorf "b") (Stop (Errorf "a") (New context.Background []).2)) =
    Errorf "a".
Proof.
  split; [reflexivity|].
  apply (stop_first_cause_wins square 1 two_files
           (New context.Background []).2 (Errorf "a") (Errorf "b")).
  reflexivity.
Defined.

(** C10. On a pipeline made from a parent that is not cancelled, a first
    [Stop(nil)] records [context.Canceled] as the cause, not nil: the
    driver's test, which compares the cause with both nil and
    [context.Canceled], does not take it for a failure, where a test
    against nil alone would; and it takes for a failure exactly the
    causes that are neither. *)
Theorem stop_nil_cause_is_canceled (parent : context.cancelCtx) (opts : list Option) :
  context.done parent = false →
  context.Cause (Stop nil (New parent opts).2) = Canceled ∧
  is_nil (context.Cause (Stop nil (New parent opts).2)) = false ∧
  failed (context.Cause (Stop nil (New parent opts).2)) = false ∧
  ∀ e, failed (context.Cause (Stop e (New parent opts).2)) = true ↔
       e ≠ nil ∧ e ≠ Canceled.
Proof.
  intros Hd. destruct parent as [[] cs]; try done. repeat split; try done.
  - by destruct e.
  - by destruct e.
  - intros [? ?]. by destruct e.
Qed.

Lemma stop_nil_cause_is_canceled_witness :
  context.done context.Background = false ∧
  context.Cause (Stop nil (New context.Background [WithLogger None]).2) = Canceled.
Proof.
  split; [reflexivity|].
  apply (stop_nil_cause_is_canceled context.Background [WithLogger None]).
  reflexivity.
Defined.

(** *** The logger is stored and never read *)






(** The scenario {1,2,3,4,5} with [x*x] and one worker. *)
Lemma single_worker_keeps_order_witness :
  (1 : Z) = 1 ∧
  (∀ x, x ∈ sends five_items → (square x).2 = nil) ∧
  exec square 1 five_items five_schedule (init context.Background None) =
    Some (all_done [WExit] [1; 4; 9; 16; 25], five_trace) ∧
  context.done (ctx (all_done [WExit] [1; 4; 9; 16; 25])) = false ∧
  sent five_trace = [1; 4; 9; 16; 25] ∧
  consumed (all_done [WExit] [1; 4; 9; 16; 25]) = [1; 4; 9; 16; 25].
Proof.
  assert (∀ x, x ∈ sends five_items → (square x).2 = nil) as Hok by reflexivity.
  split; [reflexivity|]. split; [exact Hok|]. split; [vm_compute; reflexivity|].
  split; [reflexivity|].
  apply (single_worker_keeps_order square 1 five_items context.Background None
           five_schedule (all_done [WExit] [1; 4; 9; 16; 25]) five_trace
           eq_refl Hok); [vm_compute; reflexivity|reflexivity|reflexivity].
Defined.

Lemma sink_sees_submultiset_witness :
  exec square 2 two_files two_workers_schedule (init context.Background None) =
    Some (all_done [WExit; WExit] [4; 1], two_workers_trace) ∧
  [4; 1] ⊆+ transformed square (sends two_files).
Proof.
  split; [vm_compute; reflexivity|].
  apply (sink_sees_submultiset square 2 two_files context.Background None
           two_workers_schedule (all_done [WExit; WExit] [4; 1]) two_workers_trace).
  vm_compute; reflexivity.
Defined.

Lemma channels_closed_once_witness :
  exec square 1 five_items five_schedule (init context.Background None) =
    Some (all_done [WExit] [1; 4; 9; 16; 25], five_trace) ∧
  count_events is_close_src five_trace = 1%nat ∧
  count_events is_close_fan five_trace = 1%nat.
Proof.
  split; [vm_compute; reflexivity|].
  destruct (channels_closed_once square 1 five_items context.Background None
              five_schedule (all_done [WExit] [1; 4; 9; 16; 25]) five_trace)
    as (_ & H1 & H2 & _); [vm_compute; reflexivity|].
  split; [exact H1|exact H2].
Defined.

Lemma worker_races_cancellation_witness :
  exec square 1 two_files (take 13 stop_schedule) (init context.Background None) =
    Some (cancelled_before_send, [ERecv 0 1; ECancel Canceled]) ∧
  step square 1 two_files (LWorker 0 TakeDone) cancelled_before_send =
    Some (set_worker 0 WDefer cancelled_before_send, []) ∧
  workers (set_worker 0 WDefer cancelled_before_send) !! 0%nat = Some WDefer.
Proof.
  split; [vm_compute; reflexivity|]. split; [vm_compute; reflexivity|].
  destruct (worker_races_cancellation square 1 two_files context.Background None
              (take 13 stop_schedule) cancelled_before_send
              [ERecv 0 1; ECancel Canceled] (LWorker 0 TakeDone)
              (set_worker 0 WDefer cancelled_before_send) [])
    as (_ & _ & H & _); [vm_compute; reflexivity|vm_compute; reflexivity|].
  apply (H eq_refl 0%nat 1 TakeDone); reflexivity.
Defined.

Lemma fanout_without_workers_witness :
  (0 : Z) ≤ 0 ∧
  exec square 0 two_files [LMain; LMain; LMain; LSink TakeComm 0]
    (init context.Background None) = Some (sink_parked_first, []) ∧
  workers sink_parked_first = [] ∧
  ∃ s', exec square 0 two_files [LSup; LSup; LSup] sink_parked_first =
          Some (s', [ECloseFan]) ∧
        fan_closed s' = true ∧ snk s' = SnkPDone ∧ consumed s' = [].
Proof.
  split; [lia|]. split; [vm_compute; reflexivity|].
  destruct (fanout_without_workers square 0 two_files context.Background None
              [LMain; LMain; LMain; LSink TakeComm 0] sink_parked_first [])
    as (H1 & _ & _ & _ & _ & _ & _ & _ & H2 & _); [lia|vm_compute; reflexivity|].
  split; [exact H1|].
  destruct (H2 0 eq_refl) as (s' & He & Hc & _ & Hk & _ & _ & Ho).
  exists s'. split; [exact He|]. split; [exact Hc|]. split; [exact Hk|exact Ho].
Defined.

(** ** [main]'s generator *)

Lemma walk_failed {In : Type} (es1 es2 : list (walk_entry In))
    (name : string) (e : error) :
  existsb is_failed es1 = false →
  walk (es1 ++ Failed name e :: es2) = walk es1 ++ [GStop (walk_error name e)].
Proof.
  induction es1 as [|[] es1 IH]; simpl; intros H; try done; by rewrite IH.
Qed.

Lemma sends_walk {In : Type} (es : list (walk_entry In)) :
  existsb is_failed es = false → sends (walk es) = omap regular_path es.
Proof.
  induction es as [|[] es IH]; simpl; intros H; try done; [by apply IH|].
  f_equal. by apply IH.
Qed.

(** X17. [main]'s generator stops at the first entry that
    [filepath.Walk] reports with an error: it sends the regular files met
    before that entry, in order, calls [p.Stop] with the error that
    [fmt.Errorf] makes of the path and of the walk's error, and returns;
    nothing that the walk would have met later is sent. In every run the
    items received are an initial part of those regular files, and once
    the Source's channel is closed, and so whenever [Wait] has returned,
    the context is cancelled. *)
Theorem walk_stops_at_first_failure {In Out : Type} (fn : In → Out * error)
    (workerCount : Z) (parent : context.cancelCtx) (lg : option log.Logger)
    (es1 es2 : list (walk_entry In)) (name : string) (e : error) ls s tr :
  existsb is_failed es1 = false →
  exec fn workerCount (walk (es1 ++ Failed name e :: es2)) ls (init parent lg) =
    Some (s, tr) →
  walk (es1 ++ Failed name e :: es2) =
    walk es1 ++ [GStop (walk_error name e)] ∧
  sends (walk (es1 ++ Failed name e :: es2)) = omap regular_path es1 ∧
  received tr `prefix_of` omap regular_path es1 ∧
  (src_closed s = true → context.done (ctx s) = true) ∧
  (main s = MExit → context.done (ctx s) = true).
Proof.
  intros Hes He. pose proof (exec_init_reach _ _ _ _ _ _ _ _ He) as Hr.
  pose proof (wf_reach _ _ _ _ _ _ _ Hr) as Hwf.
  pose proof (walk_failed es1 es2 name e Hes) as Hw.
  assert (sends (walk (es1 ++ Failed name e :: es2)) = omap regular_path es1) as Hs.
  { rewrite Hw. unfold sends. rewrite omap_app. simpl. rewrite app_nil_r.
    by apply sends_walk. }
  assert (last (walk (es1 ++ Failed name e :: es2)) =
          Some (GStop (walk_error name e))) as Hl.
  { rewrite Hw. apply last_snoc. }
  split; [done|]. split; [done|]. split; [|split].
  - rewrite <-Hs. etrans; [|exact (flow_src _ _ _ _ (flow_reach _ _ _ _ _ _ _ Hr))].
    by eexists.
  - intros Hc. rewrite (wf_src_closed _ _ Hwf) in Hc.
    eapply ends_with_stop_cancels; eauto.
  - intros Hm. destruct (exit_all_done _ _ Hwf Hm) as (Hs1 & _).
    eapply ends_with_stop_cancels; eauto. left. by rewrite Hs1.
Qed.

Lemma length_append (s1 s2 : string) :
  String.length (s1 +:+ s2) = (String.length s1 + String.length s2)%nat.
Proof. induction s1 as [|c s1 IH]; simpl; [done|]. by rewrite IH. Qed.

Lemma walk_error_fresh (name : string) (e : error) : walk_error name e ≠ e.
Proof.
  destruct e as [| |msg]; try done. unfold walk_error. simpl. intros Heq.
  injection Heq as Heq. apply (f_equal String.length) in Heq.
  rewrite !length_append in Heq. simpl in Heq. lia.
Qed.

Lemma walk_no_stop {In : Type} (es : list (walk_entry In)) :
  existsb is_failed es = false → existsb is_gstop (walk es) = false.
Proof. induction es as [|[] es IH]; simpl; intros H; try done; by apply IH. Qed.

(** X18. An error of the walk makes [main] report a failure. The
    callback does not pass the walk's error [err] itself to [p.Stop] but
    the error that [fmt.Errorf] makes of the path and of [err]: a new
    value, which is neither nil nor [context.Canceled] whatever [err] is.
    With a parent that is not cancelled, no [Stop] from outside and a
    transform that fails on none of the regular files met before the
    entry that fails: in every run, once the Source's channel is closed,
    the cause of the context is that new error, it is not the walk's
    error, and the driver's last test takes it for a failure. *)
Theorem walk_error_is_reported {In Out : Type} (fn : In → Out * error)
    (workerCount : Z) (parent : context.cancelCtx) (lg : option log.Logger)
    (es1 es2 : list (walk_entry In)) (name : string) (e : error) ls s tr :
  existsb is_failed es1 = false →
  context.done parent = false → existsb is_stop ls = false →
  (∀ x, x ∈ omap regular_path es1 → (fn x).2 = nil) →
  exec fn workerCount (walk (es1 ++ Failed name e :: es2)) ls (init parent lg) =
    Some (s, tr) →
  src_closed s = true →
  context.Cause (ctx s) = walk_error name e ∧
  context.Cause (ctx s) ≠ nil ∧ context.Cause (ctx s) ≠ Canceled ∧
  context.Cause (ctx s) ≠ e ∧
  failed (context.Cause (ctx s)) = true.
Proof.
  intros Hes Hdp Hls Hok He Hc.
  pose proof (exec_init_reach _ _ _ _ _ _ _ _ He) as Hr.
  pose proof (wf_reach _ _ _ _ _ _ _ Hr) as Hwf.
  pose proof (walk_failed es1 es2 name e Hes) as Hw.
  assert (context.done (ctx s) = true) as Hd.
  { eapply ends_with_stop_cancels; [|exact Hr|].
    - rewrite Hw. apply last_snoc.
    - left. by rewrite <-(wf_src_closed _ _ Hwf). }
  assert (context.Cause (ctx s) = walk_error name e) as Hcs.
  { destruct (origin_exec _ _ _ _ _ _ _ _ He Hdp Hd)
      as [(e' & Hin & _)|[(e' & Hin & Hce)|(Hn & x & Hx & Hfx)]].
    - by pose proof (existsb_elem_of _ _ _ Hls Hin).
    - rewrite Hw in Hin. apply elem_of_app in Hin as [Hin|Hin].
      + by pose proof (existsb_elem_of _ _ _ (walk_no_stop _ Hes) Hin).
      + apply list_elem_of_singleton in Hin. simplify_eq. by rewrite Hce.
    - exfalso. rewrite Hok in Hfx; [by rewrite <-Hfx in Hn|].
      rewrite <-(sends_walk _ Hes).
      pose proof (flow_src _ _ _ _ (flow_reach _ _ _ _ _ _ _ Hr)) as Hp.
      rewrite Hw in Hp. unfold sends in Hp. rewrite omap_app in Hp.
      simpl in Hp. rewrite app_nil_r in Hp.
      eapply elem_of_prefix; [|exact Hp]. apply elem_of_app. by left. }
  rewrite Hcs. split; [done|]. split; [done|]. split; [done|]. split; [|done].
  apply walk_error_fresh.
Qed.

(** ** Instances of the further properties *)

Lemma waitgroups_count_live_tasks_witness :
  exec square 1 two_files (take 13 stop_schedule) (init context.Background None) =
    Some (cancelled_before_send, [ERecv 0 1; ECancel Canceled]) ∧
  wg (pl cancelled_before_send) = 4 ∧ fan_wg cancelled_before_send = 1 ∧
  countw live (workers cancelled_before_send) = 1.
Proof.
  split; [vm_compute; reflexivity|].
  destruct (waitgroups_count_live_tasks square 1 two_files context.Background None
              (take 13 stop_schedule) cancelled_before_send
              [ERecv 0 1; ECancel Canceled])
    as (H1 & H2 & _); [vm_compute; reflexivity|].
  split; [exact H1|]. split; [exact H2|reflexivity].
Defined.

Lemma wait_returns_after_all_tasks_witness :
  exec square 2 two_files two_workers_schedule (init context.Background None) =
    Some (all_done [WExit; WExit] [4; 1], two_workers_trace) ∧
  main (all_done [WExit; WExit] [4; 1]) = MExit ∧
  Forall (λ w, w = WExit) (workers (all_done [WExit; WExit] [4; 1])) ∧
  halted square 2 two_files (all_done [WExit; WExit] [4; 1]).
Proof.
  split; [vm_compute; reflexivity|]. split; [reflexivity|].
  destruct (wait_returns_after_all_tasks square 2 two_files context.Background None
              two_workers_schedule (all_done [WExit; WExit] [4; 1])
              two_workers_trace)
    as (_ & _ & _ & H1 & _ & _ & H2); [vm_compute; reflexivity|reflexivity|].
  split; [exact H1|exact H2].
Defined.

Lemma halts_only_in_generator_send_witness :
  exec square 1 two_files early_stop_schedule (init context.Background None) =
    Some (registered (stopped (Errorf "halt")) two_files, [ECancel (Errorf "halt")]) ∧
  main (registered (stopped (Errorf "halt")) two_files) ≠ MExit ∧
  is_src_park (src (registered (stopped (Errorf "halt")) two_files)) = false ∧
  ∃ l, is_stop l = false ∧
       is_Some (step square 1 two_files l
                  (registered (stopped (Errorf "halt")) two_files)).
Proof.
  split; [vm_compute; reflexivity|]. split; [discriminate|]. split; [reflexivity|].
  apply (halts_only_in_generator_send square 1 two_files context.Background None
           early_stop_schedule (registered (stopped (Errorf "halt")) two_files)
           [ECancel (Errorf "halt")]);
    [vm_compute; reflexivity|discriminate|left; reflexivity].
Defined.

Lemma empty_generator_never_halts_witness :
  sends (walk no_file_walk) = [] ∧
  exec square 3 (walk no_file_walk) [LMain; LMain; LMain]
    (init context.Background None) =
    Some (registered context.Background (walk no_file_walk), []) ∧
  ∃ l, is_stop l = false ∧
       is_Some (step square 3 (walk no_file_walk) l
                  (registered context.Background (walk no_file_walk))).
Proof.
  split; [reflexivity|]. split; [vm_compute; reflexivity|].
  apply (empty_generator_never_halts square 3 (walk no_file_walk)
           context.Background None [LMain; LMain; LMain]
           (registered context.Background (walk no_file_walk)) []);
    [reflexivity|vm_compute; reflexivity|discriminate].
Defined.

Lemma nothing_lost_without_cancellation_witness :
  exec square 2 two_files two_workers_schedule (init context.Background None) =
    Some (all_done [WExit; WExit] [4; 1], two_workers_trace) ∧
  context.done (ctx (all_done [WExit; WExit] [4; 1])) = false ∧
  received two_workers_trace = [1; 2] ∧
  [4; 1] ≡ₚ transformed square (sends two_files).
Proof.
  split; [vm_compute; reflexivity|]. split; [reflexivity|].
  destruct (nothing_lost_without_cancellation square 2 two_files
              context.Background None two_workers_schedule
              (all_done [WExit; WExit] [4; 1]) two_workers_trace)
    as (_ & _ & H); [vm_compute; reflexivity|reflexivity|].
  destruct (H eq_refl) as (H1 & _ & H2). split; [exact H1|exact H2].
Defined.

Lemma runs_are_bounded_witness :
  exec square 1 five_items five_schedule (init context.Background None) =
    Some (all_done [WExit] [1; 4; 9; 16; 25], five_trace) ∧
  moves five_schedule = 52%nat ∧
  Z.of_nat (moves five_schedule) ≤
    10 * Z.of_nat (length five_items) + 6 * Z.max 0 1 + 14.
Proof.
  split; [vm_compute; reflexivity|]. split; [reflexivity|].
  destruct (runs_are_bounded square 1 five_items context.Background None
              five_schedule (all_done [WExit] [1; 4; 9; 16; 25]) five_trace)
    as (_ & _ & H); [vm_compute; reflexivity|exact H].
Defined.

Lemma sink_consumes_in_send_order_witness :
  exec square 2 two_files two_workers_schedule (init context.Background None) =
    Some (all_done [WExit; WExit] [4; 1], two_workers_trace) ∧
  consumed (all_done [WExit; WExit] [4; 1]) ++ [] = sent two_workers_trace.
Proof.
  split; [vm_compute; reflexivity|].
  destruct (sink_consumes_in_send_order square 2 two_files context.Background None
              two_workers_schedule (all_done [WExit; WExit] [4; 1])
              two_workers_trace)
    as (H & _); [vm_compute; reflexivity|exact H].
Defined.

Lemma workers_receive_in_generator_order_witness :
  exec square 1 two_files stop_schedule (init context.Background None) =
    Some (parked_source (stopped Canceled),
          [ERecv 0 1; ECancel Canceled; ECloseFan]) ∧
  [1] ++ [2] `prefix_of` sends two_files.
Proof.
  split; [vm_compute; reflexivity|].
  destruct (workers_receive_in_generator_order square 1 two_files
              context.Background None stop_schedule
              (parked_source (stopped Canceled))
              [ERecv 0 1; ECancel Canceled; ECloseFan])
    as (H & _); [vm_compute; reflexivity|exact H].
Defined.

Lemma source_parked_forever_witness :
  exec square 1 two_files stop_schedule (init context.Background None) =
    Some (parked_source (stopped Canceled),
          [ERecv 0 1; ECancel Canceled; ECloseFan]) ∧
  is_src_park (src (parked_source (stopped Canceled))) = true ∧
  workers (parked_source (stopped Canceled)) = [WExit] ∧
  forallb returned (workers (parked_source (stopped Canceled))) = true ∧
  Z.of_nat (length (workers (parked_source (stopped Canceled)))) = Z.max 0 1 ∧
  exec square 1 two_files [LStop (Errorf "again"); LStop nil]
    (parked_source (stopped Canceled)) =
    Some (parked_source (stopped Canceled), []) ∧
  main (parked_source (stopped Canceled)) ≠ MExit ∧
  1 ≤ wg (pl (parked_source (stopped Canceled))).
Proof.
  split; [vm_compute; reflexivity|]. split; [reflexivity|].
  split; [reflexivity|]. split; [reflexivity|]. split; [reflexivity|].
  split; [vm_compute; reflexivity|].
  destruct (source_parked_forever square 1 two_files context.Background None
              stop_schedule (parked_source (stopped Canceled))
              [ERecv 0 1; ECancel Canceled; ECloseFan]
              [LStop (Errorf "again"); LStop nil]
              (parked_source (stopped Canceled)) [])
    as (_ & _ & H1 & H2);
    [vm_compute; reflexivity|reflexivity|reflexivity|reflexivity
    |vm_compute; reflexivity|].
  split; [exact H1|exact H2].
Defined.

Lemma context_cancelled_once_witness :
  exec square 1 two_files stop_schedule (init context.Background None) =
    Some (parked_source (stopped Canceled),
          [ERecv 0 1; ECancel Canceled; ECloseFan]) ∧
  cancels [ERecv 0 1; ECancel Canceled; ECloseFan (In:=Z) (Out:=Z)] = [Canceled].
Proof.
  split; [vm_compute; reflexivity|].
  apply (context_cancelled_once square 1 two_files context.Background None
           stop_schedule (parked_source (stopped Canceled))
           [ERecv 0 1; ECancel Canceled; ECloseFan]).
  vm_compute; reflexivity.
Defined.

Lemma cancelled_parent_runs_dry_witness :
  context.done (stopped (Errorf "parent")) = true ∧
  exec square 1 two_files early_stop_schedule
    (init (stopped (Errorf "parent")) None) =
    Some (registered (stopped (Errorf "parent")) two_files, []) ∧
  context.Cause (ctx (registered (stopped (Errorf "parent")) two_files)) =
    Errorf "parent".
Proof.
  split; [reflexivity|]. split; [vm_compute; reflexivity|].
  destruct (cancelled_parent_runs_dry square 1 two_files
              (stopped (Errorf "parent")) None early_stop_schedule
              (registered (stopped (Errorf "parent")) two_files) [])
    as (_ & _ & _ & H & _); [reflexivity|vm_compute; reflexivity|exact H].
Defined.

Lemma sink_after_cancellation_witness :
  exec square 1 two_files (take 13 stop_schedule) (init context.Background None) =
    Some (cancelled_before_send, [ERecv 0 1; ECancel Canceled]) ∧
  context.done (ctx cancelled_before_send) = true ∧
  exec square 1 two_files (drop 13 stop_schedule) cancelled_before_send =
    Some (parked_source (stopped Canceled), [ECloseFan]) ∧
  sent [ECloseFan (In:=Z) (Out:=Z)] = [] ∧
  consumed (parked_source (stopped Canceled)) `prefix_of`
    consumed cancelled_before_send ++ held_snk (snk cancelled_before_send).
Proof.
  split; [vm_compute; reflexivity|]. split; [reflexivity|].
  split; [vm_compute; reflexivity|].
  destruct (sink_after_cancellation square 1 two_files context.Background None
              (take 13 stop_schedule) cancelled_before_send
              [ERecv 0 1; ECancel Canceled]
              (drop 13 stop_schedule) (parked_source (stopped Canceled))
              [ECloseFan])
    as (H1 & _ & H2);
    [vm_compute; reflexivity|reflexivity|vm_compute; reflexivity|].
  split; [exact H1|exact H2].
Defined.

Lemma receives_after_cancellation_witness :
  exec square 1 two_files parked_then_stopped (init context.Background None) =
    Some (set_src (SrcPark 1 [GCheck; GSend 2])
            (registered (stopped Canceled) two_files), [ECancel Canceled]) ∧
  exec square 1 two_files [LSup; LSup; LWorker 0 TakeComm]
    (set_src (SrcPark 1 [GCheck; GSend 2])
       (registered (stopped Canceled) two_files)) =
    Some (late_receive, [ERecv 0 1]) ∧
  recv_budget 1
    (set_src (SrcPark 1 [GCheck; GSend 2])
       (registered (stopped Canceled) two_files)) = 1 ∧
  Z.of_nat (length (received [ERecv 0 1 (In:=Z) (Out:=Z)])) ≤ 1.
Proof.
  split; [vm_compute; reflexivity|]. split; [vm_compute; reflexivity|].
  split; [reflexivity|].
  destruct (receives_after_cancellation square 1 two_files context.Background None
              parked_then_stopped
              (set_src (SrcPark 1 [GCheck; GSend 2])
                 (registered (stopped Canceled) two_files))
              [ECancel Canceled]
              [LSup; LSup; LWorker 0 TakeComm] late_receive [ERecv 0 1])
    as (H & _);
    [vm_compute; reflexivity|reflexivity|vm_compute; reflexivity|exact H].
Defined.

Lemma cause_comes_from_a_stop_witness :
  exec (fails_on 1) 1 two_files error_schedule (init context.Background None) =
    Some (parked_source (stopped (Errorf "open")),
          [ERecv 0 1; ECancel (Errorf "open"); ECloseFan]) ∧
  context.done context.Background = false ∧
  context.done (ctx (parked_source (stopped (Errorf "open")))) = true ∧
  ((∃ e, LStop e ∈ error_schedule ∧ Errorf "open" = recorded e) ∨
   (∃ e, GStop e ∈ two_files ∧ Errorf "open" = recorded e) ∨
   (is_nil (Errorf "open") = false ∧
    ∃ x, x ∈ sends two_files ∧
         x ∈ received [ERecv 0 1; ECancel (Errorf "open"); ECloseFan (Out:=Z)] ∧
         (fails_on 1 x).2 = Errorf "open")).
Proof.
  split; [vm_compute; reflexivity|]. split; [reflexivity|]. split; [reflexivity|].
  apply (cause_comes_from_a_stop (fails_on 1) 1 two_files context.Background None
           error_schedule (parked_source (stopped (Errorf "open")))
           [ERecv 0 1; ECancel (Errorf "open"); ECloseFan]);
    [vm_compute; reflexivity|reflexivity|reflexivity].
Defined.

Lemma completes_when_nothing_fails_witness :
  (1 : Z) ≤ 2 ∧
  existsb is_stop two_workers_schedule = false ∧
  existsb is_gstop two_files = false ∧
  (∀ x, x ∈ sends two_files → (square x).2 = nil) ∧
  exec square 2 two_files two_workers_schedule (init context.Background None) =
    Some (all_done [WExit; WExit] [4; 1], two_workers_trace) ∧
  [4; 1] ≡ₚ (λ x, (square x).1) <$> sends two_files.
Proof.
  assert (∀ x, x ∈ sends two_files → (square x).2 = nil) as Hok by reflexivity.
  split; [lia|]. split; [reflexivity|]. split; [reflexivity|].
  split; [exact Hok|]. split; [vm_compute; reflexivity|].
  destruct (completes_when_nothing_fails square 2 two_files context.Background None
              two_workers_schedule (all_done [WExit; WExit] [4; 1])
              two_workers_trace)
    as (_ & _ & _ & H);
    [lia|reflexivity|reflexivity|reflexivity|exact Hok|vm_compute; reflexivity|].
  destruct (H eq_refl) as [_ H2]. exact H2.
Defined.

Lemma walk_stops_at_first_failure_witness :
  existsb is_failed [Irregular; Regular (1 : Z)] = false ∧
  exec square 1 (walk failing_walk) failing_walk_schedule
    (init context.Background None) =
    Some (finished (stopped (walk_error "dir/b" (Errorf "denied"))) [WExit] [],
          [ERecv 0 1; ECancel (walk_error "dir/b" (Errorf "denied"));
           ECloseSrc; ECloseFan]) ∧
  walk failing_walk =
    [GCheck; GCheck; GSend 1; GStop (walk_error "dir/b" (Errorf "denied"))] ∧
  context.done
    (ctx (finished (stopped (walk_error "dir/b" (Errorf "denied"))) [WExit] [])) =
    true.
Proof.
  split; [reflexivity|]. split; [vm_compute; reflexivity|].
  destruct (walk_stops_at_first_failure square 1 context.Background None
              [Irregular; Regular 1] [Regular 2] "dir/b" (Errorf "denied")
              failing_walk_schedule
              (finished (stopped (walk_error "dir/b" (Errorf "denied"))) [WExit] [])
              [ERecv 0 1; ECancel (walk_error "dir/b" (Errorf "denied"));
               ECloseSrc; ECloseFan])
    as (H1 & _ & _ & _ & H2); [reflexivity|vm_compute; reflexivity|].
  split; [exact H1|exact (H2 eq_refl)].
Defined.

Lemma closing_follows_the_items_witness :
  (1 : Z) ≤ 2 ∧
  exec square 2 two_files two_workers_schedule (init context.Background None) =
    Some (all_done [WExit; WExit] [4; 1], two_workers_trace) ∧
  context.done (ctx (all_done [WExit; WExit] [4; 1])) = false ∧
  src_closed (all_done [WExit; WExit] [4; 1]) = true ∧
  sent two_workers_trace ≡ₚ transformed square (sends two_files).
Proof.
  split; [lia|]. split; [vm_compute; reflexivity|]. split; [reflexivity|].
  destruct (closing_follows_the_items square 2 two_files context.Background None
              two_workers_schedule (all_done [WExit; WExit] [4; 1])
              two_workers_trace)
    as (_ & _ & H & _); [lia|vm_compute; reflexivity|reflexivity|].
  exact (H eq_refl).
Defined.

Lemma walk_error_is_reported_witness :
  existsb is_failed [Irregular; Regular (1 : Z)] = false ∧
  context.done context.Background = false ∧
  existsb is_stop failing_walk_schedule = false ∧
  (∀ x, x ∈ omap regular_path [Irregular; Regular (1 : Z)] → (square x).2 = nil) ∧
  exec square 1 (walk failing_walk) failing_walk_schedule
    (init context.Background None) =
    Some (finished (stopped (walk_error "dir/b" (Errorf "denied"))) [WExit] [],
          [ERecv 0 1; ECancel (walk_error "dir/b" (Errorf "denied"));
           ECloseSrc; ECloseFan]) ∧
  src_closed
    (finished (stopped (walk_error "dir/b" (Errorf "denied"))) [WExit] []) = true ∧
  context.Cause
    (ctx (finished (stopped (walk_error "dir/b" (Errorf "denied"))) [WExit] [])) =
    walk_error "dir/b" (Errorf "denied") ∧
  failed
    (context.Cause
       (ctx (finished (stopped (walk_error "dir/b" (Errorf "denied"))) [WExit] []))) =
    true.
Proof.
  assert (∀ x, x ∈ omap regular_path [Irregular; Regular (1 : Z)] →
               (square x).2 = nil) as Hok by reflexivity.
  split; [reflexivity|]. split; [reflexivity|]. split; [reflexivity|].
  split; [exact Hok|]. split; [vm_compute; reflexivity|]. split; [reflexivity|].
  destruct (walk_error_is_reported square 1 context.Background None
              [Irregular; Regular 1] [Regular 2] "dir/b" (Errorf "denied")
              failing_walk_schedule
              (finished (stopped (walk_error "dir/b" (Errorf "denied"))) [WExit] [])
              [ERecv 0 1; ECancel (walk_error "dir/b" (Errorf "denied"));
               ECloseSrc; ECloseFan])
    as (H1 & _ & _ & _ & H2);
    [reflexivity|reflexivity|reflexivity|exact Hok
    |vm_compute; reflexivity|reflexivity|].
  split; [exact H1|exact H2].
Defined.
